(** * gosshclient: the environment injector and the connection manager

    A shallow embedding of [env.go] (AddEnv) and of the SSH client
    manager (getClient, getSession, dial, mustBeConnected, Close,
    ExecScript, Shell).

    Go strings are byte sequences: they are modelled as [string], a list
    of [ascii] (8-bit) characters.  A Go function that can panic returns a
    [GoResult]. *)

From Stdlib Require Import String Ascii List Bool Arith Lia.
Import ListNotations.
Open Scope string_scope.

(** ** Strings *)

Definition nl : string := String "010"%char EmptyString.
Definition dquote : ascii := "034"%char.
Definition squote : ascii := "039"%char.

(** ** Outcomes of Go calls *)

(** A Go [error] value is modelled by its message; [nil] is [None]. *)
Definition error := string.

Inductive panic : Type :=
| IndexOutOfRange (index len : nat)
| NilDereference
| CloseOfClosedChannel
| SendOnClosedChannel
| InGoroutine (p : panic).   (* a panic of a goroutine other than the caller's *)

Inductive GoResult (A : Type) : Type :=
| Returned (a : A)
| Panicked (p : panic).
Arguments Returned {A} a.
Arguments Panicked {A} p.

(** [l[i]] on a slice: a run-time panic when [i] is out of range. *)
Definition index_slice {A} (l : list A) (i : nat) : GoResult A :=
  match nth_error l i with
  | Some x => Returned x
  | None => Panicked (IndexOutOfRange i (List.length l))
  end.

(** ** Library functions used by AddEnv *)

(** [strings.Index(s, sep)] followed by the two slices [s[:m]] and
    [s[m+1:]], for a one-byte separator: [None] when [sep] does not occur. *)
Fixpoint cut (sep : ascii) (s : string) : option (string * string) :=
  match s with
  | EmptyString => None
  | String c s' =>
      if Ascii.eqb c sep then Some (EmptyString, s')
      else match cut sep s' with
           | Some (a, b) => Some (String c a, b)
           | None => None
           end
  end.

(** [strings.SplitN(s, sep, n)] for a one-byte separator and [n >= 0]: at
    most [n] substrings, the last one being the unsplit remainder. *)
Fixpoint SplitN (s : string) (sep : ascii) (n : nat) : list string :=
  match n with
  | 0 => []
  | 1 => [s]
  | S n' =>
      match cut sep s with
      | Some (a, b) => a :: SplitN b sep n'
      | None => [s]
      end
  end.

(** [strings.Replace(s, old, new, -1)] for a one-byte [old]. *)
Fixpoint ReplaceAll (s : string) (old : ascii) (new : string) : string :=
  match s with
  | EmptyString => EmptyString
  | String c s' =>
      (if Ascii.eqb c old then new else String c EmptyString)
        ++ ReplaceAll s' old new
  end.

Definition in_range (lo hi : nat) (c : ascii) : bool :=
  Nat.leb lo (nat_of_ascii c) && Nat.leb (nat_of_ascii c) hi.

Definition is_digit (c : ascii) : bool := in_range 48 57 c.
Definition is_alpha (c : ascii) : bool := in_range 65 90 c || in_range 97 122 c.
Definition is_underscore (c : ascii) : bool := Ascii.eqb c "_".

(** The regexp class [\w] of Go (RE2): [0-9A-Za-z_]. *)
Definition is_word (c : ascii) : bool := is_digit c || is_alpha c || is_underscore c.

Fixpoint mem_ascii (c : ascii) (s : string) : bool :=
  match s with
  | EmptyString => false
  | String d s' => Ascii.eqb c d || mem_ascii c s'
  end.

(** The bytes outside the class [[^\w@%+=:,./-]] of shellescape: the ones
    that need no quoting. *)
Definition quote_safe (c : ascii) : bool := is_word c || mem_ascii c "@%+=:,./-".

Fixpoint all_chars (p : ascii -> bool) (s : string) : bool :=
  match s with
  | EmptyString => true
  | String c s' => p c && all_chars p s'
  end.

(** [pattern.MatchString(s)] for [pattern = [^\w@%+=:,./-]]: some byte of
    [s] is outside the safe class.  (A byte of a non-ASCII rune is never
    in the class, so the match can be decided byte by byte.) *)
Definition pattern_MatchString (s : string) : bool := negb (all_chars quote_safe s).

(** [shellescape.Quote] (github.com/alessio/shellescape, the dependency
    imported by env.go):
<<
    if len(s) == 0 { return "''" }
    if pattern.MatchString(s) {
        return "'" + strings.Replace(s, "'", "'\"'\"'", -1) + "'"
    }
    return s
>> *)
Definition quoted_squote : string :=
  String squote (String dquote (String squote (String dquote (String squote EmptyString)))).

Definition Quote (s : string) : string :=
  if Nat.eqb (String.length s) 0 then "''"
  else if pattern_MatchString s
       then "'" ++ ReplaceAll s squote quoted_squote ++ "'"
       else s.

(** ** env.go *)

(** [fmt.Sprintf("%s=%s; export %s\n", a, b, c)] *)
Definition Sprintf_export (a b c : string) : string :=
  a ++ "=" ++ b ++ "; export " ++ c ++ nl.

(** The loop of AddEnv, with the accumulator [envBlob]: [inl] when the
    function returns (or panics) from inside the loop, [inr] with the
    final [envBlob] when the loop runs to its end. *)
Fixpoint AddEnv_loop (envBlob : string) (env : list string)
  : GoResult (string * option error) + string :=
  match env with
  | [] => inr envBlob
  | kv :: rest =>
      let kvs := SplitN kv "=" 2 in
      match index_slice kvs 0 with
      | Panicked p => inl (Panicked p)
      | Returned k0 =>
          if negb (String.eqb k0 (Quote k0))
          then inl (Returned ("", Some "shell variable name not valid"))
          else
            match index_slice kvs 1 with
            | Panicked p => inl (Panicked p)
            | Returned k1 =>
                AddEnv_loop (envBlob ++ Sprintf_export k0 (Quote k1) k0) rest
            end
      end
  end.

(** [func AddEnv(script string, env []string) (string, error)] *)
Definition AddEnv (script : string) (env : list string)
  : GoResult (string * option error) :=
  match AddEnv_loop "" env with
  | inl early => early
  | inr envBlob => Returned (envBlob ++ script, None)
  end.

(** *** Specification vocabulary for AddEnv *)

(** A shell identifier: [^[A-Za-z_][A-Za-z0-9_]*$]. *)
Definition is_identifier (s : string) : bool :=
  match s with
  | EmptyString => false
  | String c s' => (is_alpha c || is_underscore c) && all_chars is_word s'
  end.

(** The variable name of a declaration: the part before the first ['=']
    (the whole declaration when it has none). *)
Definition decl_name (kv : string) : string :=
  match cut "=" kv with
  | Some (a, _) => a
  | None => kv
  end.

Definition has_eq (kv : string) : bool := mem_ascii "=" kv.

(** A declaration [NAME=VALUE] built from its two parts. *)
Definition decl (nv : string * string) : string := fst nv ++ "=" ++ snd nv.

(** The prologue line of one declaration. *)
Definition export_line (nv : string * string) : string :=
  fst nv ++ "=" ++ Quote (snd nv) ++ "; export " ++ fst nv ++ nl.

Fixpoint concat_lines (ls : list string) : string :=
  match ls with
  | [] => ""
  | l :: ls' => l ++ concat_lines ls'
  end.

(** ** The SSH client manager *)

(** [ssh.ClientConfig] is a type of golang.org/x/crypto/ssh; the manager
    only stores it and hands it to the protocol engine. *)
Inductive ClientConfig : Type := OpaqueConfig (id : nat).

(** Handles on the objects of the protocol engine. *)
Definition ClientH := nat.   (* *ssh.Client *)
Definition SessionH := nat.  (* *ssh.Session *)

(** [type SSHClient struct]; a nil pointer is [None], and the channel
    [done] is [true] once it has been closed. *)
Record SSHClient : Type := mkSSHClient {
  hostPort : string;
  sshConfig : ClientConfig;
  client : option ClientH;
  session : option SessionH;
  done : bool
}.

(** [func NewSSHClient(hostPort string, sshconfig ssh.ClientConfig) *SSHClient] *)
Definition NewSSHClient (hp : string) (cfg : ClientConfig) : SSHClient :=
  {| hostPort := hp; sshConfig := cfg; client := None; session := None;
     done := false |}.

(** The calls the manager makes on its collaborators (transport, protocol
    engine, local terminal, signals), and its operations on its own
    channels and goroutines. *)
Inductive Event : Type :=
| EvDialContext (addr : string)
| EvGoWatcher (ctx_has_done : bool)
| EvNewClientConn (addr : string)
| EvNewSession (c : ClientH)
| EvSessionWait (ss : SessionH)
| EvClientClose (c : ClientH)
| EvCloseDone
| EvStdinPipe (ss : SessionH)
| EvSessionShell (ss : SessionH)
| EvWrite (data : string)
| EvStdinClose
| EvMakeRaw
| EvRestore
| EvGetSize
| EvRequestPty (ss : SessionH) (term : string) (h w : nat)
| EvSetStdio (ss : SessionH)
| EvSignalNotify
| EvWindowChange (h w : nat)
| EvCloseSigChan
| EvWgWait.

(** What the collaborators answer.  Each answer may depend on everything
    that happened before the call (the history of events), so that two
    calls of the same operation can answer differently. *)
Record Collaborators : Type := {
  net_DialContext : list Event -> option error;
  ssh_NewClientConn : list Event -> error + ClientH;
  client_NewSession : list Event -> error + SessionH;
  session_Wait : list Event -> option error;
  client_Close : list Event -> option error;
  session_StdinPipe : list Event -> option error;
  session_Shell : list Event -> option error;
  inp_Write : list Event -> option error;
  terminal_MakeRaw : list Event -> option error;
  terminal_GetSize : list Event -> error + (nat * nat);
  session_RequestPty : list Event -> option error;
  (** the resize notifications (SIGWINCH) that arrive at a point of
      Shell, each with the terminal size read for it; Shell asks while the
      remote shell runs, once the session is cleared, and once the signal
      channel is closed *)
  sigwinch_sizes : list Event -> list (nat * nat)
}.

(** The state a method runs in: the receiver [s] and the history, the
    latest event first. *)
Record World : Type := mkWorld {
  self : SSHClient;
  hist : list Event
}.

Inductive Res (A : Type) : Type :=
| Ret (a : A) (w : World)
| Pan (p : panic) (w : World).
Arguments Ret {A} a w.
Arguments Pan {A} p w.

Definition M (A : Type) : Type := World -> Res A.

Definition ret {A} (a : A) : M A := fun w => Ret a w.

Definition bind {A B} (m : M A) (k : A -> M B) : M B :=
  fun w => match m w with
           | Ret a w' => k a w'
           | Pan p w' => Pan p w'
           end.

Notation "x <- m ;; k" := (bind m (fun x => k))
  (at level 61, m at next level, right associativity).
Notation "m ;;; k" := (bind m (fun _ => k))
  (at level 61, right associativity).

Definition throw {A} (p : panic) : M A := fun w => Pan p w.

(** [defer d] around a body: [d] runs when the body returns and also when
    it panics; the body's result is kept.  A panic of another goroutine
    ends the program at once: no deferred call runs. *)
Definition defer_ {A} (d : M unit) (body : M A) : M A :=
  fun w => match body w with
           | Ret a w' => match d w' with
                         | Ret _ w'' => Ret a w''
                         | Pan p w'' => Pan p w''
                         end
           | Pan (InGoroutine q) w' => Pan (InGoroutine q) w'
           | Pan p w' => match d w' with
                         | Ret _ w'' => Pan p w''
                         | Pan p' w'' => Pan p' w''
                         end
           end.

(** What another goroutine does, placed where it happens: its panic is
    the program's. *)
Definition in_goroutine {A} (m : M A) : M A :=
  fun w => match m w with
           | Ret a w' => Ret a w'
           | Pan p w' => Pan (InGoroutine p) w'
           end.

Definition get_self : M SSHClient := fun w => Ret (self w) w.

Definition set_client (c : option ClientH) : M unit :=
  fun w => let s := self w in
    Ret tt {| self := {| hostPort := hostPort s; sshConfig := sshConfig s;
                         client := c; session := session s; done := done s |};
              hist := hist w |}.

Definition set_session (ss : option SessionH) : M unit :=
  fun w => let s := self w in
    Ret tt {| self := {| hostPort := hostPort s; sshConfig := sshConfig s;
                         client := client s; session := ss; done := done s |};
              hist := hist w |}.

(** A call on a collaborator: it answers from the history so far, and the
    call is appended to the history. *)
Definition ask {R} (e : Event) (answer : list Event -> R) : M R :=
  fun w => Ret (answer (hist w)) {| self := self w; hist := e :: hist w |}.

Definition emit (e : Event) : M unit := ask e (fun _ => tt).

(** The history once the events [evs], given in the order they happen,
    have followed the history [h]. *)
Definition after (h : list Event) (evs : list Event) : list Event :=
  (rev evs ++ h)%list.

(** A method call through a pointer: a nil pointer panics. *)
Definition deref {A} (p : option A) : M A :=
  match p with
  | Some a => ret a
  | None => throw NilDereference
  end.

(** [close(s.done)]: closing a closed channel panics. *)
Definition close_done : M unit :=
  fun w => let s := self w in
    if done s then Pan CloseOfClosedChannel w
    else Ret tt {| self := {| hostPort := hostPort s; sshConfig := sshConfig s;
                              client := client s; session := session s;
                              done := true |};
                   hist := EvCloseDone :: hist w |}.

Definition err_not_connected : error :=
  "sshclient not connected, did you call Dial()?".

Definition is_nil {A} (p : option A) : bool :=
  match p with None => true | Some _ => false end.

Section Manager.

Variable env : Collaborators.

(** [func (s *SSHClient) getClient(ctx context.Context) error]; [ctx_has_done]
    is [ctx.Done() != nil].  The body of the watcher goroutine runs
    concurrently and is not modelled beyond its start. *)
Definition getClient (ctx_has_done : bool) : M (option error) :=
  s <- get_self ;;
  if negb (is_nil (client s)) then ret None
  else
    r <- ask (EvDialContext (hostPort s)) (net_DialContext env) ;;
    match r with
    | Some err => ret (Some err)
    | None =>
        emit (EvGoWatcher ctx_has_done) ;;;
        r <- ask (EvNewClientConn (hostPort s)) (ssh_NewClientConn env) ;;
        match r with
        | inl err => ret (Some err)
        | inr c => set_client (Some c) ;;; ret None
        end
    end.

(** [func (s *SSHClient) getSession() error] *)
Definition getSession : M (option error) :=
  s <- get_self ;;
  if negb (is_nil (session s)) then ret None
  else
    c <- deref (client s) ;;
    r <- ask (EvNewSession c) (client_NewSession env) ;;
    match r with
    | inl err => ret (Some err)
    | inr ss => set_session (Some ss) ;;; ret None
    end.

(** [func (s *SSHClient) mustBeConnected() error] *)
Definition mustBeConnected : M (option error) :=
  s <- get_self ;;
  if is_nil (session s) || is_nil (client s)
  then ret (Some err_not_connected)
  else ret None.

(** The function deferred by Close:
    [select { case <-s.done: default: close(s.done) }] *)
Definition Close_deferred : M unit :=
  s <- get_self ;;
  if done s then ret tt else close_done.

(** [func (s *SSHClient) Close() error] *)
Definition Close : M (option error) :=
  defer_ Close_deferred
    (s <- get_self ;;
     e <- match session s with
          | Some ss =>
              r <- ask (EvSessionWait ss) (session_Wait env) ;;
              match r with
              | Some err => ret (Some err)
              | None => set_session None ;;; ret None
              end
          | None => ret None
          end ;;
     match e with
     | Some err => ret (Some err)
     | None =>
         s <- get_self ;;
         match client s with
         | Some c =>
             r <- ask (EvClientClose c) (client_Close env) ;;
             match r with
             | Some err => ret (Some err)
             | None => set_client None ;;; ret None
             end
         | None => ret None
         end
     end).

(** [func (s *SSHClient) dial(ctx context.Context) error] *)
Definition dial (ctx_has_done : bool) : M (option error) :=
  e <- getClient ctx_has_done ;;
  match e with
  | Some err => ret (Some err)
  | None =>
      e <- getSession ;;
      match e with
      | Some err =>
          cerr <- Close ;;
          match cerr with
          | Some cerr =>
              ret (Some ("session error: " ++ err ++ ", cleanup error: " ++ cerr))
          | None => ret (Some ("session error: " ++ err))
          end
      | None => ret None
      end
  end.

(** [func (s *SSHClient) Dial() error]: [context.Background()] has no
    [Done] channel. *)
Definition Dial : M (option error) := dial false.

(** [func (s *SSHClient) DialContext(ctx context.Context) error] *)
Definition DialContext (ctx_has_done : bool) : M (option error) :=
  dial ctx_has_done.

(** [func (s *SSHClient) stdinPipe() (io.WriteCloser, error)]; the pipe
    itself is not represented, only the error. *)
Definition stdinPipe : M (option error) :=
  e <- mustBeConnected ;;
  match e with
  | Some err => ret (Some err)
  | None =>
      s <- get_self ;;
      ss <- deref (session s) ;;
      ask (EvStdinPipe ss) (session_StdinPipe env)
  end.

(** [func (s *SSHClient) ExecScript(script string) error] *)
Definition ExecScript (script : string) : M (option error) :=
  e <- mustBeConnected ;;
  match e with
  | Some err => ret (Some err)
  | None =>
      defer_ (Close ;;; ret tt)
        (e <- stdinPipe ;;
         match e with
         | Some err => ret (Some err)
         | None =>
             s <- get_self ;;
             ss <- deref (session s) ;;
             e <- ask (EvSessionShell ss) (session_Shell env) ;;
             match e with
             | Some err => ret (Some err)
             | None =>
                 e <- ask (EvWrite (script ++ nl)) (inp_Write env) ;;
                 match e with
                 | Some err => ret (Some err)
                 | None =>
                     emit EvStdinClose ;;;
                     s <- get_self ;;
                     ss <- deref (session s) ;;
                     err <- ask (EvSessionWait ss) (session_Wait env) ;;
                     set_session None ;;;
                     ret err
                 end
             end
         end)
  end.

(** The resize worker of Shell: for every notification it reads the
    terminal size and forwards it through [s.session], which it reads
    anew each time. *)
Fixpoint forward_resizes (sizes : list (nat * nat)) : M unit :=
  match sizes with
  | [] => ret tt
  | (w, h) :: rest =>
      emit EvGetSize ;;;
      s <- get_self ;;
      _ <- deref (session s) ;;
      emit (EvWindowChange h w) ;;;
      forward_resizes rest
  end.

(** A notification that arrives once [sigChan] is closed: the signal
    package sends it on the closed channel. *)
Definition send_on_closed (sizes : list (nat * nat)) : M unit :=
  match sizes with
  | [] => ret tt
  | _ :: _ => throw SendOnClosedChannel
  end.

(** The notifications that arrive at this point. *)
Definition notifications : M (list (nat * nat)) :=
  fun w => Ret (sigwinch_sizes env (hist w)) w.

(** [func (s *SSHClient) Shell() error].  The worker goroutine and the
    delivery of signals run beside the main path.  Their steps are placed
    at the three points where they differ: while the main path is blocked
    in [session.Wait], where the worker forwards each resize; after
    [s.session = nil], where the worker finds no session; and after
    [close(sigChan)], where the notification meets a closed channel
    ([signal.Notify] is never undone).  One notification is handled in one
    step. *)
Definition Shell : M (option error) :=
  e <- mustBeConnected ;;
  match e with
  | Some err => ret (Some err)
  | None =>
      defer_ (Close ;;; ret tt)
        (e <- ask EvMakeRaw (terminal_MakeRaw env) ;;
         match e with
         | Some err => ret (Some err)
         | None =>
             defer_ (emit EvRestore)
               (r <- ask EvGetSize (terminal_GetSize env) ;;
                match r with
                | inl err => ret (Some err)
                | inr (w, h) =>
                    s <- get_self ;;
                    ss <- deref (session s) ;;
                    e <- ask (EvRequestPty ss "xterm" h w) (session_RequestPty env) ;;
                    match e with
                    | Some err => ret (Some err)
                    | None =>
                        emit (EvSetStdio ss) ;;;
                        e <- ask (EvSessionShell ss) (session_Shell env) ;;
                        match e with
                        | Some err => ret (Some err)
                        | None =>
                            emit EvSignalNotify ;;;
                            sizes <- notifications ;;
                            in_goroutine (forward_resizes sizes) ;;;
                            s <- get_self ;;
                            ss <- deref (session s) ;;
                            err <- ask (EvSessionWait ss) (session_Wait env) ;;
                            set_session None ;;;
                            late <- notifications ;;
                            in_goroutine (forward_resizes late) ;;;
                            emit EvCloseSigChan ;;;
                            stray <- notifications ;;
                            in_goroutine (send_on_closed stray) ;;;
                            emit EvWgWait ;;;
                            ret err
                        end
                    end
                end)
         end)
  end.

End Manager.

(** ** How a POSIX shell reads a prologue

    The claims about escaping speak of what a POSIX shell binds when it
    reads the lines AddEnv produces.  This is a model of the part of the
    Shell Command Language (quoting, token recognition, variable
    assignments, the [export] builtin) such lines can exercise.  Anything
    outside that part (expansions, operators, globbing characters, other
    commands) makes the model give up with [None].

    Two things a shell does not do are part of the model.  A shell cannot
    hold a NUL byte: it deletes the NUL bytes of its input as it reads
    them (dash and bash both do).  And a shell does not treat every name as
    a plain variable: some are read-only ([UID] in bash), some are set by
    the shell itself after every command ([_]), some are checked when
    they are assigned ([OPTIND] in dash).  Which names these are depends on
    the shell and on its state, so the model takes them as a parameter,
    [special], and gives up on an assignment to such a name. *)

(** A character of a word, with whether it was quoted. *)
Definition qchar : Type := ascii * bool.
Definition word : Type := list qchar.

Inductive lex_mode : Type :=
| Unquoted | InSingle | InDouble | Escaped | EscapedInDouble.

Record lex_state : Type := mkLex {
  mode : lex_mode;
  cur : option word;           (* the word being read, if any *)
  words : list word;           (* the words of the current command *)
  cmds : list (list word)      (* the commands already complete *)
}.

Inductive sh_class : Type :=
| ClsSingle | ClsDouble | ClsBackslash | ClsBlank | ClsNewline | ClsSemi
| ClsUnsupported | ClsLiteral.

Definition nul : ascii := "000"%char.
Definition tab : ascii := "009"%char.
Definition newline : ascii := "010"%char.
Definition backslash : ascii := "092"%char.

(** The role of an unquoted character. *)
Definition sh_classify (c : ascii) : sh_class :=
  if Ascii.eqb c squote then ClsSingle
  else if Ascii.eqb c dquote then ClsDouble
  else if Ascii.eqb c backslash then ClsBackslash
  else if Ascii.eqb c " " || Ascii.eqb c tab then ClsBlank
  else if Ascii.eqb c newline then ClsNewline
  else if Ascii.eqb c ";" then ClsSemi
  else if mem_ascii c "|&<>()$`*?[#~{}!" then ClsUnsupported
  else ClsLiteral.

Definition push (q : qchar) (w : option word) : option word :=
  match w with
  | Some l => Some (l ++ [q])%list
  | None => Some [q]
  end.

Definition start_word (w : option word) : option word :=
  match w with
  | Some l => Some l
  | None => Some []
  end.

Definition end_word (w : option word) (ws : list word) : list word :=
  match w with
  | Some l => (ws ++ [l])%list
  | None => ws
  end.

(** One character that is not NUL. *)
Definition lex_char (st : lex_state) (c : ascii) : option lex_state :=
  match mode st with
  | Unquoted =>
      match sh_classify c with
      | ClsSingle => Some (mkLex InSingle (start_word (cur st)) (words st) (cmds st))
      | ClsDouble => Some (mkLex InDouble (start_word (cur st)) (words st) (cmds st))
      | ClsBackslash => Some (mkLex Escaped (cur st) (words st) (cmds st))
      | ClsBlank => Some (mkLex Unquoted None (end_word (cur st) (words st)) (cmds st))
      | ClsNewline =>
          match end_word (cur st) (words st) with
          | [] => Some (mkLex Unquoted None [] (cmds st))
          | ws => Some (mkLex Unquoted None [] (cmds st ++ [ws])%list)
          end
      | ClsSemi =>
          match end_word (cur st) (words st) with
          | [] => None
          | ws => Some (mkLex Unquoted None [] (cmds st ++ [ws])%list)
          end
      | ClsUnsupported => None
      | ClsLiteral => Some (mkLex Unquoted (push (c, false) (cur st)) (words st) (cmds st))
      end
  | InSingle =>
      if Ascii.eqb c squote
      then Some (mkLex Unquoted (cur st) (words st) (cmds st))
      else Some (mkLex InSingle (push (c, true) (cur st)) (words st) (cmds st))
  | InDouble =>
      if Ascii.eqb c dquote
      then Some (mkLex Unquoted (cur st) (words st) (cmds st))
      else if Ascii.eqb c backslash
      then Some (mkLex EscapedInDouble (cur st) (words st) (cmds st))
      else if mem_ascii c "$`" then None
      else Some (mkLex InDouble (push (c, true) (cur st)) (words st) (cmds st))
  | Escaped =>
      if Ascii.eqb c newline
      then Some (mkLex Unquoted (cur st) (words st) (cmds st))
      else Some (mkLex Unquoted (push (c, true) (cur st)) (words st) (cmds st))
  | EscapedInDouble =>
      if Ascii.eqb c newline
      then Some (mkLex InDouble (cur st) (words st) (cmds st))
      else if Ascii.eqb c dquote || Ascii.eqb c backslash || mem_ascii c "$`"
      then Some (mkLex InDouble (push (c, true) (cur st)) (words st) (cmds st))
      else Some (mkLex InDouble (push (c, true) (push (backslash, true) (cur st)))
                       (words st) (cmds st))
  end.

(** One byte of input: a NUL byte is deleted, in every mode. *)
Definition lex_step (st : lex_state) (c : ascii) : option lex_state :=
  if Ascii.eqb c nul then Some st else lex_char st c.

Fixpoint lex_run (st : lex_state) (s : string) : option lex_state :=
  match s with
  | EmptyString => Some st
  | String c s' =>
      match lex_step st c with
      | Some st' => lex_run st' s'
      | None => None
      end
  end.

Definition lex_start : lex_state := mkLex Unquoted None [] [].

(** The commands of an input: the input must end outside quotes. *)
Definition sh_lex (s : string) : option (list (list word)) :=
  match lex_run lex_start s with
  | Some st =>
      match mode st with
      | Unquoted =>
          match end_word (cur st) (words st) with
          | [] => Some (cmds st)
          | ws => Some (cmds st ++ [ws])%list
          end
      | _ => None
      end
  | None => None
  end.

(** The shell's variables, latest binding first, and the exported names. *)
Record sh_env : Type := mkShEnv {
  vars : list (string * string);
  exported : list string
}.

Definition sh_empty : sh_env := mkShEnv [] [].

Definition set_var (n v : string) (e : sh_env) : sh_env :=
  mkShEnv ((n, v) :: vars e) (exported e).

Definition mark_exported (n : string) (e : sh_env) : sh_env :=
  mkShEnv (vars e) (n :: exported e).

Fixpoint assoc (n : string) (l : list (string * string)) : option string :=
  match l with
  | [] => None
  | (k, v) :: l' => if String.eqb n k then Some v else assoc n l'
  end.

(** What a child process sees for [n]. *)
Definition sh_getenv (n : string) (e : sh_env) : option string :=
  if existsb (String.eqb n) (exported e) then assoc n (vars e) else None.

Definition word_text (w : word) : string := string_of_list_ascii (map fst w).

(** A word up to its first ['=']: the name must be unquoted. *)
Fixpoint assignment_parts (w : word) : option (list ascii * word) :=
  match w with
  | [] => None
  | (c, q) :: w' =>
      if q then None
      else if Ascii.eqb c "=" then Some ([], w')
      else match assignment_parts w' with
           | Some (n, v) => Some (c :: n, v)
           | None => None
           end
  end.

(** [NAME=value] with a valid name is an assignment; the value is the rest
    of the word after quote removal. *)
Definition as_assignment (w : word) : option (string * string) :=
  match assignment_parts w with
  | Some (n, v) =>
      if is_identifier (string_of_list_ascii n)
      then Some (string_of_list_ascii n, word_text v)
      else None
  | None => None
  end.

Section ShellCommands.

(** The names the shell does not treat as plain variables. *)
Variable special : string -> bool.

Fixpoint sh_assign_all (ws : list word) (e : sh_env) : option sh_env :=
  match ws with
  | [] => Some e
  | w :: r =>
      match as_assignment w with
      | Some (n, v) =>
          if special n then None else sh_assign_all r (set_var n v e)
      | None => None
      end
  end.

Fixpoint sh_export_all (ws : list word) (e : sh_env) : option sh_env :=
  match ws with
  | [] => Some e
  | w :: r =>
      match as_assignment w with
      | Some (n, v) =>
          if special n then None
          else sh_export_all r (mark_exported n (set_var n v e))
      | None =>
          if is_identifier (word_text w) && negb (special (word_text w))
          then sh_export_all r (mark_exported (word_text w) e)
          else None
      end
  end.

(** A simple command: only assignments, or the [export] builtin. *)
Definition sh_exec (cmd : list word) (e : sh_env) : option sh_env :=
  match cmd with
  | [] => Some e
  | w :: r =>
      match as_assignment w with
      | Some _ => sh_assign_all cmd e
      | None =>
          if String.eqb (word_text w) "export" then sh_export_all r e else None
      end
  end.

Fixpoint sh_exec_all (cs : list (list word)) (e : sh_env) : option sh_env :=
  match cs with
  | [] => Some e
  | c :: cs' =>
      match sh_exec c e with
      | Some e' => sh_exec_all cs' e'
      | None => None
      end
  end.

(** Reading [input] in a shell whose state is [e]. *)
Definition sh_run (input : string) (e : sh_env) : option sh_env :=
  match sh_lex input with
  | Some cs => sh_exec_all cs e
  | None => None
  end.

End ShellCommands.

(** A shell with no special name at all. *)
Definition no_special : string -> bool := fun _ => false.

(** The value of a declaration: the part after the first ['=']. *)
Definition decl_value (kv : string) : string :=
  match cut "=" kv with
  | Some (_, b) => b
  | None => ""
  end.

(** The prologue line of a declaration given as one string. *)
Definition prologue_line (kv : string) : string :=
  decl_name kv ++ "=" ++ Quote (decl_value kv) ++ "; export " ++ decl_name kv ++ nl.

(** A declaration the loop accepts: the name has no ['='] and is left
    alone by Quote. *)
Definition accepted (nv : string * string) : Prop :=
  mem_ascii "=" (fst nv) = false /\ Quote (fst nv) = fst nv.

(** The characters of [s] as a word, all unquoted or all quoted. *)
Definition marked (q : bool) (s : string) : word :=
  map (fun c => (c, q)) (list_ascii_of_string s).

(** The two commands a shell reads on the prologue line of [(n, v)]. *)
Definition line_cmds (nv : string * string) : list (list word) :=
  [ [ (marked false (fst nv) ++ ("="%char, false)
         :: marked (pattern_MatchString (snd nv)) (snd nv))%list ];
    [ marked false "export"; marked false (fst nv) ] ].

(** Binding [n] to [v] and exporting it. *)
Definition bind_decl (e : sh_env) (nv : string * string) : sh_env :=
  mark_exported (fst nv) (set_var (fst nv) (snd nv) e).

(** *** Vocabulary for the manager *)

(** [n] calls of Close in a row, the results dropped. *)
Fixpoint Close_times (env : Collaborators) (n : nat) : M unit :=
  match n with
  | 0 => ret tt
  | S k => Close env ;;; Close_times env k
  end.

(** How many times [close(s.done)] ran in a history. *)
Fixpoint count_done (h : list Event) : nat :=
  match h with
  | [] => 0
  | EvCloseDone :: t => S (count_done t)
  | _ :: t => count_done t
  end.

(** The event of the deferred function of Close: it closes [done] when
    [done] was still open. *)
Definition fire_done (d : bool) : list Event :=
  if d then [] else [EvCloseDone].

(** Collaborators that answer the same at every call: the results of
    [session.Wait], [client.Close], [session.Shell], [terminal.MakeRaw]
    and [client.NewSession] are given, every other call succeeds. *)
Definition scripted (wait_r close_r shell_r raw_r : option error)
  (session_r : error + SessionH) : Collaborators :=
  {| net_DialContext := fun _ => None;
     ssh_NewClientConn := fun _ => inr 1;
     client_NewSession := fun _ => session_r;
     session_Wait := fun _ => wait_r;
     client_Close := fun _ => close_r;
     session_StdinPipe := fun _ => None;
     session_Shell := fun _ => shell_r;
     inp_Write := fun _ => None;
     terminal_MakeRaw := fun _ => raw_r;
     terminal_GetSize := fun _ => inr (80, 24);
     session_RequestPty := fun _ => None;
     sigwinch_sizes := fun _ => [] |}.

(** A manager just built, and the same manager after a successful Dial
    (client 1, session 2). *)
Definition fresh_world : World :=
  mkWorld (NewSSHClient "host:22" (OpaqueConfig 0)) [].

Definition connected_world : World :=
  mkWorld (mkSSHClient "host:22" (OpaqueConfig 0) (Some 1) (Some 2) false)
    (after [] [EvDialContext "host:22"; EvGoWatcher false;
               EvNewClientConn "host:22"; EvNewSession 1]).

(** ** env.go, the first version of AddEnv

    The file also holds the version of AddEnv that came before the one
    above: it checks nothing and escapes nothing. *)

Module EnvFirstVersion.

(** [fmt.Sprintln(a, b, c)] for three strings: a space between operands,
    always, and a newline at the end. *)
Definition Sprintln3 (a b c : string) : string :=
  a ++ " " ++ b ++ " " ++ c ++ nl.

Fixpoint AddEnv_loop (envBlob : string) (env : list string)
  : GoResult (string * option error) + string :=
  match env with
  | [] => inr envBlob
  | kv :: rest =>
      let kvs := SplitN kv "=" 2 in
      match index_slice kvs 0 with
      | Panicked p => inl (Panicked p)
      | Returned k0 =>
          AddEnv_loop (envBlob ++ Sprintln3 kv "; export " k0) rest
      end
  end.

(** [func AddEnv(script string, env []string) (string, error)] *)
Definition AddEnv (script : string) (env : list string)
  : GoResult (string * option error) :=
  match AddEnv_loop "" env with
  | inl early => early
  | inr envBlob => Returned (envBlob ++ script, None)
  end.

(** The line this version writes for a declaration. *)
Definition unchecked_line (kv : string) : string :=
  kv ++ " ; export  " ++ decl_name kv ++ nl.

End EnvFirstVersion.

(** *** Further vocabulary *)

(** The one error of AddEnv. *)
Definition name_error : error := "shell variable name not valid".

(** A declaration that goes through the loop of AddEnv: it contains ['=']
    and its name is left alone by Quote. *)
Definition clean (kv : string) : Prop :=
  has_eq kv = true /\ Quote (decl_name kv) = decl_name kv.

(** The events of the resize worker of Shell for the sizes it reads. *)
Definition resize_events (sizes : list (nat * nat)) : list Event :=
  flat_map (fun wh => [EvGetSize; EvWindowChange (snd wh) (fst wh)]) sizes.

Definition is_restore (e : Event) : bool :=
  match e with EvRestore => true | _ => false end.

(** How many times the terminal was restored in a history. *)
Definition count_restore (h : list Event) : nat :=
  List.length (filter is_restore h).

(** No session without a connection. *)
Definition session_needs_client (s : SSHClient) : Prop :=
  session s <> None -> client s <> None.

(** Collaborators whose transport fails on the first dial only. *)
Definition flaky_transport : Collaborators :=
  {| net_DialContext :=
       fun h => match h with [] => Some "dial tcp: connection refused" | _ => None end;
     ssh_NewClientConn := fun _ => inr 1;
     client_NewSession := fun _ => inr 2;
     session_Wait := fun _ => None;
     client_Close := fun _ => None;
     session_StdinPipe := fun _ => None;
     session_Shell := fun _ => None;
     inp_Write := fun _ => None;
     terminal_MakeRaw := fun _ => None;
     terminal_GetSize := fun _ => inr (80, 24);
     session_RequestPty := fun _ => None;
     sigwinch_sizes := fun _ => [] |}.


(** * Properties of AddEnv *)

Lemma append_nil_r (s : string) : s ++ "" = s.
Proof. induction s as [|c s IH]; simpl; [reflexivity | now rewrite IH]. Qed.

Lemma append_assoc (a b c : string) : (a ++ b) ++ c = a ++ (b ++ c).
Proof. induction a as [|x a IH]; simpl; [reflexivity | now rewrite IH]. Qed.

Lemma length_append (a b : string) :
  String.length (a ++ b) = String.length a + String.length b.
Proof. induction a as [|x a IH]; simpl; [reflexivity | now rewrite IH]. Qed.

(** *** Splitting a declaration *)

Lemma cut_at_first (n v : string) :
  mem_ascii "=" n = false -> cut "=" (n ++ String "=" v) = Some (n, v).
Proof.
  induction n as [|c n IH]; cbn [mem_ascii cut append]; intros H.
  - reflexivity.
  - apply orb_false_iff in H. destruct H as [Hc Hn].
    rewrite Ascii.eqb_sym in Hc. rewrite Hc, (IH Hn). reflexivity.
Qed.

Lemma cut_decl (n v : string) :
  mem_ascii "=" n = false -> cut "=" (n ++ "=" ++ v) = Some (n, v).
Proof. exact (cut_at_first n v). Qed.

Lemma cut_none (s : string) :
  mem_ascii "=" s = false -> cut "=" s = None.
Proof.
  induction s as [|c s IH]; cbn [mem_ascii cut]; intros H.
  - reflexivity.
  - apply orb_false_iff in H. destruct H as [Hc Hs].
    rewrite Ascii.eqb_sym in Hc. rewrite Hc, (IH Hs). reflexivity.
Qed.

Lemma cut_some (s a b : string) :
  cut "=" s = Some (a, b) -> s = a ++ "=" ++ b /\ mem_ascii "=" a = false.
Proof.
  revert a b. induction s as [|c s IH]; cbn [cut]; intros a b H.
  - discriminate.
  - destruct (Ascii.eqb c "=") eqn:Hc.
    + inversion H; subst. apply Ascii.eqb_eq in Hc. subst. split; reflexivity.
    + destruct (cut "=" s) as [[a' b']|] eqn:Hs; [|discriminate].
      inversion H; subst. destruct (IH a' b eq_refl) as [-> Ha].
      split; [reflexivity|]. cbn [mem_ascii]. rewrite Ascii.eqb_sym, Hc. exact Ha.
Qed.

Lemma cut_has_eq (s : string) :
  has_eq s = true -> exists a b, cut "=" s = Some (a, b).
Proof.
  unfold has_eq. induction s as [|c s IH]; cbn [mem_ascii cut]; intros H.
  - discriminate.
  - destruct (Ascii.eqb c "=") eqn:Hc; [eauto|].
    rewrite Ascii.eqb_sym, Hc in H. cbn [orb] in H.
    destruct (IH H) as (a & b & ->). eauto.
Qed.

(** Splitting is on the first ['='] only. *)
Lemma SplitN_decl (n v : string) :
  mem_ascii "=" n = false -> SplitN (n ++ "=" ++ v) "=" 2 = [n; v].
Proof. intros H. cbn [SplitN]. rewrite (cut_decl n v H). reflexivity. Qed.

Lemma SplitN_without_eq (kv : string) :
  has_eq kv = false -> SplitN kv "=" 2 = [kv].
Proof. intros H. cbn [SplitN]. rewrite (cut_none kv H). reflexivity. Qed.

Lemma SplitN_head (kv : string) :
  nth_error (SplitN kv "=" 2) 0 = Some (decl_name kv).
Proof.
  unfold decl_name. cbn [SplitN]. destruct (cut "=" kv) as [[a b]|]; reflexivity.
Qed.

(** *** When Quote leaves a string alone *)

Lemma length_ReplaceAll (s : string) :
  String.length s <= String.length (ReplaceAll s squote quoted_squote).
Proof.
  induction s as [|c s IH]; simpl; [lia|].
  rewrite length_append. destruct (Ascii.eqb c squote); simpl; lia.
Qed.

Lemma Quote_fixed_iff (s : string) :
  Quote s = s <-> s <> "" /\ all_chars quote_safe s = true.
Proof.
  unfold Quote, pattern_MatchString. split.
  - destruct s as [|c s]; simpl Nat.eqb; cbv iota; [discriminate|].
    destruct (all_chars quote_safe (String c s)) eqn:Hs; simpl negb; cbv iota.
    + intros _. split; [discriminate | reflexivity].
    + intros H. apply (f_equal String.length) in H.
      simpl String.length in H. rewrite length_append in H.
      pose proof (length_ReplaceAll (String c s)) as L.
      simpl String.length in H, L. lia.
  - intros [Hne Hs]. destruct s as [|c s]; [congruence|].
    simpl Nat.eqb. cbv iota. rewrite Hs. reflexivity.
Qed.

Lemma is_word_safe (c : ascii) : is_word c = true -> quote_safe c = true.
Proof. unfold quote_safe. intros ->. reflexivity. Qed.

Lemma all_chars_impl (p q : ascii -> bool) (s : string) :
  (forall c, p c = true -> q c = true) ->
  all_chars p s = true -> all_chars q s = true.
Proof.
  intros Hpq. induction s as [|c s IH]; simpl; [reflexivity|].
  intros H. apply andb_true_iff in H. destruct H as [Hc Hs].
  rewrite (Hpq c Hc), (IH Hs). reflexivity.
Qed.

Lemma identifier_start_word (c : ascii) :
  is_alpha c || is_underscore c = true -> is_word c = true.
Proof.
  unfold is_word. intros H. apply orb_true_iff in H.
  destruct H as [-> | ->]; [destruct (is_digit c) | ]; auto using orb_true_r.
Qed.

Lemma identifier_Quote_fixed (n : string) :
  is_identifier n = true -> Quote n = n.
Proof.
  intros H. apply Quote_fixed_iff. destruct n as [|c n]; [discriminate|].
  split; [discriminate|]. simpl in *.
  apply andb_true_iff in H. destruct H as [Hc Hn].
  rewrite (is_word_safe c (identifier_start_word c Hc)).
  exact (all_chars_impl _ _ n is_word_safe Hn).
Qed.

Lemma is_word_not_eq (c : ascii) : is_word c = true -> Ascii.eqb "=" c = false.
Proof.
  intros H. destruct (Ascii.eqb "=" c) eqn:E; [|reflexivity].
  apply Ascii.eqb_eq in E. subst c. discriminate H.
Qed.

Lemma all_word_no_eq (s : string) :
  all_chars is_word s = true -> mem_ascii "=" s = false.
Proof.
  induction s as [|c s IH]; cbn [all_chars mem_ascii]; [reflexivity|].
  intros H. apply andb_true_iff in H. destruct H as [Hc Hs].
  rewrite (is_word_not_eq c Hc), (IH Hs). reflexivity.
Qed.

Lemma identifier_no_eq (n : string) :
  is_identifier n = true -> mem_ascii "=" n = false.
Proof.
  destruct n as [|c n]; [discriminate|]. cbn [is_identifier mem_ascii]. intros H.
  apply andb_true_iff in H. destruct H as [Hc Hn].
  rewrite (is_word_not_eq c (identifier_start_word c Hc)).
  exact (all_word_no_eq n Hn).
Qed.

(** *** The loop *)

Lemma AddEnv_loop_accepted (decls : list (string * string)) :
  Forall accepted decls ->
  forall envBlob,
    AddEnv_loop envBlob (map decl decls)
    = inr (envBlob ++ concat_lines (map export_line decls)).
Proof.
  induction 1 as [|[n v] decls [Hn Hq] _ IH]; intros envBlob; simpl map.
  - simpl. now rewrite append_nil_r.
  - unfold decl at 1. simpl fst in *. simpl snd.
    cbn [AddEnv_loop]. rewrite (SplitN_decl n v Hn).
    cbn [index_slice nth_error]. rewrite Hq, String.eqb_refl.
    cbn [negb]. rewrite IH. cbn [concat_lines].
    unfold export_line, Sprintf_export. simpl fst. simpl snd.
    now rewrite append_assoc.
Qed.

Lemma AddEnv_accepted (script : string) (decls : list (string * string)) :
  Forall accepted decls ->
  AddEnv script (map decl decls)
  = Returned (concat_lines (map export_line decls) ++ script, None).
Proof.
  intros H. unfold AddEnv. rewrite (AddEnv_loop_accepted decls H). reflexivity.
Qed.

Lemma AddEnv_loop_rejects (pre : list string) (kv : string) (post : list string) :
  Forall (fun d => has_eq d = true) pre ->
  Quote (decl_name kv) <> decl_name kv ->
  forall envBlob,
    AddEnv_loop envBlob (pre ++ kv :: post)
    = inl (Returned ("", Some "shell variable name not valid")).
Proof.
  intros Hpre Hkv. induction Hpre as [|d pre Hd _ IH]; intros envBlob.
  - cbn [app AddEnv_loop]. unfold index_slice. rewrite SplitN_head.
    apply not_eq_sym in Hkv. apply String.eqb_neq in Hkv. rewrite Hkv. reflexivity.
  - cbn [app AddEnv_loop].
    destruct (cut_has_eq d Hd) as (a & b & Hcut).
    assert (HS : SplitN d "=" 2 = [a; b]) by (cbn [SplitN]; now rewrite Hcut).
    rewrite HS. cbn [index_slice nth_error].
    destruct (negb (a =? Quote a)); [reflexivity | apply IH].
Qed.

(** A declaration without ['='] whose name passes the check makes the
    loop read [kvs[1]] of a one-element slice. *)
Lemma AddEnv_panics_without_eq (script kv : string) (rest : list string) :
  has_eq kv = false -> Quote kv = kv ->
  AddEnv script (kv :: rest) = Panicked (IndexOutOfRange 1 1).
Proof.
  intros Hno Hq. unfold AddEnv. cbn [AddEnv_loop].
  rewrite (SplitN_without_eq kv Hno). cbn [index_slice nth_error].
  rewrite Hq, String.eqb_refl. reflexivity.
Qed.

(** C1 as stated fails: a name that starts with a digit needs no quoting. *)
Lemma AddEnv_accepts_leading_digit :
  ~ (forall script env,
        (exists kv, In kv env /\ is_identifier (decl_name kv) = false) ->
        exists e, AddEnv script env = Returned ("", Some e)).
Proof.
  intros H. destruct (H "echo hi" ["1BAD=x"]) as [e He].
  - exists "1BAD=x". split; [left; reflexivity | reflexivity].
  - vm_compute in He. discriminate He.
Qed.

(** C1, amended: a declaration whose name is empty or has a byte outside
    [A-Za-z0-9_@%+=:,./-] (a name that shell escaping changes) makes AddEnv
    return the validation error and the empty string, whatever was
    accumulated before, when the declarations before it all contain ['=']. *)
Theorem AddEnv_rejects_escaped_name
  (script : string) (pre : list string) (kv : string) (post : list string) :
  Forall (fun d => has_eq d = true) pre ->
  decl_name kv = "" \/ all_chars quote_safe (decl_name kv) = false ->
  AddEnv script (pre ++ kv :: post)
  = Returned ("", Some "shell variable name not valid").
Proof.
  intros Hpre Hbad. unfold AddEnv.
  rewrite (AddEnv_loop_rejects pre kv post Hpre); [reflexivity|].
  intros Hq. apply Quote_fixed_iff in Hq. destruct Hq as [Hne Hsafe].
  destruct Hbad as [He | Hu]; [contradiction | congruence].
Qed.

Lemma AddEnv_rejects_escaped_name_witness :
  AddEnv "echo hi" (["A=1"] ++ "BAD NAME=x" :: ["B=2"])
  = Returned ("", Some "shell variable name not valid").
Proof.
  apply (AddEnv_rejects_escaped_name "echo hi" ["A=1"] "BAD NAME=x" ["B=2"]).
  - repeat constructor.
  - right. reflexivity.
Defined.

Lemma decl_parts (kv : string) :
  has_eq kv = true ->
  kv = decl (decl_name kv, decl_value kv) /\ mem_ascii "=" (decl_name kv) = false.
Proof.
  intros H. destruct (cut_has_eq kv H) as (a & b & Hcut).
  unfold decl, decl_name, decl_value. rewrite Hcut. cbn [fst snd].
  exact (cut_some kv a b Hcut).
Qed.

(** C2: when every declaration contains ['='] and every name passes the
    check of AddEnv, the result is, without error, one line
    [NAME=<escaped value>; export NAME] per declaration, in order, followed
    by the script; name and value are the parts of the declaration before
    and after its first ['=']. *)
Theorem AddEnv_valid_declarations (script : string) (env : list string) :
  Forall (fun kv => has_eq kv = true) env ->
  Forall (fun kv => Quote (decl_name kv) = decl_name kv) env ->
  AddEnv script env
  = Returned (concat_lines (map prologue_line env) ++ script, None)
  /\ Forall (fun kv => kv = decl_name kv ++ "=" ++ decl_value kv
                       /\ has_eq (decl_name kv) = false) env.
Proof.
  intros Heq Hq.
  assert (Hparts : env = map decl (map (fun kv => (decl_name kv, decl_value kv)) env)).
  { rewrite map_map. rewrite <- (map_id env) at 1. apply map_ext_in.
    intros kv Hin. rewrite Forall_forall in Heq.
    exact (proj1 (decl_parts kv (Heq kv Hin))). }
  split.
  - rewrite Hparts at 1. rewrite AddEnv_accepted.
    + rewrite map_map. reflexivity.
    + apply Forall_forall. intros nv Hin. apply in_map_iff in Hin.
      destruct Hin as (kv & <- & Hin). rewrite Forall_forall in Heq, Hq.
      split; cbn [fst]; [exact (proj2 (decl_parts kv (Heq kv Hin))) | exact (Hq kv Hin)].
  - apply Forall_forall. intros kv Hin. rewrite Forall_forall in Heq.
    exact (decl_parts kv (Heq kv Hin)).
Qed.

Lemma AddEnv_valid_declarations_witness :
  AddEnv "echo $FOO" ["FOO=bar baz"]
  = Returned ("FOO='bar baz'; export FOO" ++ nl ++ "echo $FOO", None).
Proof.
  refine (proj1 (AddEnv_valid_declarations "echo $FOO" ["FOO=bar baz"] _ _)).
  - repeat constructor.
  - repeat constructor.
Defined.

(** The two scenarios of the specification. *)
Example AddEnv_empty_list (script : string) :
  AddEnv script [] = Returned (script, None).
Proof. reflexivity. Qed.

Example AddEnv_FOO :
  AddEnv "echo $FOO" ["FOO=bar baz"]
  = Returned ("FOO='bar baz'; export FOO" ++ nl ++ "echo $FOO", None).
Proof. reflexivity. Qed.

(** C10 fails on the code: for the declaration ["FOO"], which has no ['='],
    AddEnv does not return; reading [kvs[1]] of the one-element split
    panics. *)
Theorem AddEnv_index_out_of_range :
  AddEnv "echo hi" ["FOO"] = Panicked (IndexOutOfRange 1 1).
Proof. apply AddEnv_panics_without_eq; reflexivity. Qed.

(** * The prologue as a POSIX shell reads it *)

Lemma lex_run_app (a b : string) :
  forall st,
    lex_run st (a ++ b)
    = match lex_run st a with
      | Some st' => lex_run st' b
      | None => None
      end.
Proof.
  induction a as [|c a IH]; intros st; cbn [append lex_run].
  - reflexivity.
  - destruct (lex_step st c); [apply IH | reflexivity].
Qed.

Lemma marked_cons (q : bool) (c : ascii) (s : string) :
  marked q (String c s) = (c, q) :: marked q s.
Proof. reflexivity. Qed.

Lemma word_text_marked (q : bool) (s : string) : word_text (marked q s) = s.
Proof.
  unfold word_text, marked. rewrite map_map. cbn [fst].
  rewrite map_id. apply string_of_list_ascii_of_string.
Qed.

(** Every byte Quote leaves unquoted is an ordinary character for the
    shell. *)
Lemma sh_classify_safe (c : ascii) :
  quote_safe c = true -> sh_classify c = ClsLiteral.
Proof.
  destruct c as [[] [] [] [] [] [] [] []]; vm_compute;
    intros H; try reflexivity; discriminate H.
Qed.

Lemma safe_not_nul (c : ascii) : quote_safe c = true -> Ascii.eqb c nul = false.
Proof.
  intros H. destruct (Ascii.eqb c nul) eqn:E; [|reflexivity].
  apply Ascii.eqb_eq in E. subst c. discriminate H.
Qed.

Lemma safe_without_nul (s : string) :
  all_chars quote_safe s = true -> mem_ascii nul s = false.
Proof.
  induction s as [|c s IH]; cbn [all_chars mem_ascii]; [reflexivity|].
  intros H. apply andb_true_iff in H. destruct H as [Hc Hs].
  rewrite Ascii.eqb_sym, (safe_not_nul c Hc), (IH Hs). reflexivity.
Qed.

Lemma lex_step_safe (c : ascii) (w : option word) ws cs :
  quote_safe c = true ->
  lex_step (mkLex Unquoted w ws cs) c
  = Some (mkLex Unquoted (push (c, false) w) ws cs).
Proof.
  intros H. unfold lex_step, lex_char. rewrite (safe_not_nul c H).
  cbn [mode cur words cmds]. rewrite (sh_classify_safe c H). reflexivity.
Qed.

Lemma lex_run_safe (s : string) :
  all_chars quote_safe s = true ->
  forall b ws cs,
    lex_run (mkLex Unquoted (Some b) ws cs) s
    = Some (mkLex Unquoted (Some (b ++ marked false s)%list) ws cs).
Proof.
  induction s as [|c s IH]; cbn [all_chars]; intros H b ws cs.
  - cbn [lex_run]. unfold marked. cbn. now rewrite app_nil_r.
  - apply andb_true_iff in H. destruct H as [Hc Hs].
    cbn [lex_run]. rewrite (lex_step_safe c _ ws cs Hc). cbn [push].
    rewrite (IH Hs). rewrite marked_cons, <- app_assoc. reflexivity.
Qed.

(** A word of safe characters that starts a new token. *)
Lemma lex_run_safe_new (s : string) :
  s <> "" -> all_chars quote_safe s = true ->
  forall ws cs,
    lex_run (mkLex Unquoted None ws cs) s
    = Some (mkLex Unquoted (Some (marked false s)) ws cs).
Proof.
  destruct s as [|c s]; [congruence|]. cbn [all_chars]. intros _ H ws cs.
  apply andb_true_iff in H. destruct H as [Hc Hs].
  cbn [lex_run]. rewrite (lex_step_safe c _ ws cs Hc). cbn [push].
  rewrite (lex_run_safe s Hs). reflexivity.
Qed.

(** Between single quotes, the replacement of every ['] closes the
    quotes, gives one ['] between double quotes, and opens them again;
    every other byte that is not NUL stands for itself. *)
Lemma lex_run_single_body (v : string) :
  mem_ascii nul v = false ->
  forall b ws cs,
    lex_run (mkLex InSingle (Some b) ws cs) (ReplaceAll v squote quoted_squote)
    = Some (mkLex InSingle (Some (b ++ marked true v)%list) ws cs).
Proof.
  induction v as [|c v IH]; cbn [mem_ascii]; intros Hn b ws cs; cbn [ReplaceAll].
  - cbn [lex_run]. unfold marked. cbn. now rewrite app_nil_r.
  - apply orb_false_iff in Hn. destruct Hn as [Hc0 Hv].
    rewrite lex_run_app. destruct (Ascii.eqb c squote) eqn:Hc.
    + apply Ascii.eqb_eq in Hc. subst c.
      change (lex_run (mkLex InSingle (Some b) ws cs) quoted_squote)
        with (Some (mkLex InSingle (Some (b ++ [(squote, true)])%list) ws cs)).
      cbv beta iota.
      rewrite (IH Hv), marked_cons, <- app_assoc. reflexivity.
    + cbn [lex_run]. unfold lex_step at 1, lex_char.
      rewrite Ascii.eqb_sym, Hc0. cbn [mode cur words cmds].
      rewrite Hc. cbn [push]. cbv beta iota.
      rewrite (IH Hv), marked_cons, <- app_assoc. reflexivity.
Qed.

(** Escaping and reading back: the shell reads [Quote v] as the
    characters of [v], when [v] has no NUL byte. *)
Lemma lex_run_Quote (v : string) :
  mem_ascii nul v = false ->
  forall b ws cs,
    lex_run (mkLex Unquoted (Some b) ws cs) (Quote v)
    = Some (mkLex Unquoted
              (Some (b ++ marked (pattern_MatchString v) v)%list) ws cs).
Proof.
  intros Hn b ws cs. unfold Quote.
  destruct v as [|c v].
  - cbn. now rewrite app_nil_r.
  - cbn [String.length Nat.eqb].
    destruct (pattern_MatchString (String c v)) eqn:Hm.
    + rewrite lex_run_app.
      change (lex_run (mkLex Unquoted (Some b) ws cs) "'")
        with (Some (mkLex InSingle (Some b) ws cs)).
      cbv beta iota.
      rewrite lex_run_app, (lex_run_single_body _ Hn). reflexivity.
    + apply lex_run_safe. unfold pattern_MatchString in Hm.
      now apply negb_false_iff in Hm.
Qed.

Lemma identifier_safe (n : string) :
  is_identifier n = true -> n <> "" /\ all_chars quote_safe n = true.
Proof. intros H. apply Quote_fixed_iff. now apply identifier_Quote_fixed. Qed.

Lemma lex_run_semi_export (w : word) cs :
  lex_run (mkLex Unquoted (Some w) [] cs) "; export "
  = Some (mkLex Unquoted None [marked false "export"] (cs ++ [[w]])%list).
Proof. reflexivity. Qed.

Lemma lex_run_end_of_line (w0 w : word) cs :
  lex_run (mkLex Unquoted (Some w) [w0] cs) nl
  = Some (mkLex Unquoted None [] (cs ++ [[w0; w]])%list).
Proof. reflexivity. Qed.

(** One prologue line is read as two commands. *)
Lemma lex_run_line (n v : string) cs :
  is_identifier n = true -> mem_ascii nul v = false ->
  lex_run (mkLex Unquoted None [] cs) (export_line (n, v))
  = Some (mkLex Unquoted None [] (cs ++ line_cmds (n, v))%list).
Proof.
  intros Hid Hnul. destruct (identifier_safe n Hid) as [Hne Hsafe].
  unfold export_line, line_cmds. cbn [fst snd].
  rewrite lex_run_app, (lex_run_safe_new n Hne Hsafe). cbv beta iota.
  rewrite lex_run_app.
  change (lex_run (mkLex Unquoted (Some (marked false n)) [] cs) "=")
    with (Some (mkLex Unquoted (Some (marked false n ++ [("="%char, false)])%list) [] cs)).
  cbv beta iota.
  rewrite lex_run_app, (lex_run_Quote v Hnul). cbv beta iota.
  rewrite lex_run_app, lex_run_semi_export. cbv beta iota.
  rewrite lex_run_app, (lex_run_safe_new n Hne Hsafe). cbv beta iota.
  rewrite lex_run_end_of_line.
  rewrite <- !app_assoc. reflexivity.
Qed.

Lemma lex_run_prologue (decls : list (string * string)) :
  Forall (fun nv => is_identifier (fst nv) = true
                    /\ mem_ascii nul (snd nv) = false) decls ->
  forall cs,
    lex_run (mkLex Unquoted None [] cs) (concat_lines (map export_line decls))
    = Some (mkLex Unquoted None [] (cs ++ flat_map line_cmds decls)%list).
Proof.
  induction 1 as [|[n v] decls [Hn Hv] _ IH]; intros cs.
  - cbn. now rewrite app_nil_r.
  - cbn [map concat_lines flat_map]. cbn [fst snd] in Hn, Hv.
    rewrite lex_run_app, (lex_run_line n v cs Hn Hv). cbv beta iota.
    rewrite IH, app_assoc. reflexivity.
Qed.

Lemma sh_lex_prologue (decls : list (string * string)) :
  Forall (fun nv => is_identifier (fst nv) = true
                    /\ mem_ascii nul (snd nv) = false) decls ->
  sh_lex (concat_lines (map export_line decls)) = Some (flat_map line_cmds decls).
Proof.
  intros H. unfold sh_lex, lex_start.
  rewrite (lex_run_prologue decls H). reflexivity.
Qed.

(** The shell is back between commands when the script starts, so what it
    made of the prologue does not depend on the script. *)
Lemma lex_run_prologue_then_script
  (decls : list (string * string)) (script : string) :
  Forall (fun nv => is_identifier (fst nv) = true
                    /\ mem_ascii nul (snd nv) = false) decls ->
  lex_run lex_start (concat_lines (map export_line decls) ++ script)
  = lex_run (mkLex Unquoted None [] (flat_map line_cmds decls)) script.
Proof.
  intros H. unfold lex_start.
  rewrite lex_run_app, (lex_run_prologue decls H). reflexivity.
Qed.

(** *** Executing the commands *)

Lemma assignment_parts_marked (n : string) (rest : word) :
  mem_ascii "=" n = false ->
  assignment_parts (marked false n ++ ("="%char, false) :: rest)%list
  = Some (list_ascii_of_string n, rest).
Proof.
  induction n as [|c n IH]; cbn [mem_ascii]; intros H.
  - reflexivity.
  - apply orb_false_iff in H. destruct H as [Hc Hn].
    rewrite marked_cons. cbn [app assignment_parts list_ascii_of_string].
    rewrite Ascii.eqb_sym, Hc, (IH Hn). reflexivity.
Qed.

Lemma assignment_parts_no_eq (n : string) :
  mem_ascii "=" n = false -> assignment_parts (marked false n) = None.
Proof.
  induction n as [|c n IH]; cbn [mem_ascii]; intros H.
  - reflexivity.
  - apply orb_false_iff in H. destruct H as [Hc Hn].
    rewrite marked_cons. cbn [assignment_parts].
    rewrite Ascii.eqb_sym, Hc, (IH Hn). reflexivity.
Qed.

Lemma as_assignment_word (q : bool) (n v : string) :
  is_identifier n = true ->
  as_assignment (marked false n ++ ("="%char, false) :: marked q v)%list
  = Some (n, v).
Proof.
  intros Hid. unfold as_assignment.
  rewrite (assignment_parts_marked n _ (identifier_no_eq n Hid)).
  rewrite string_of_list_ascii_of_string, Hid, word_text_marked. reflexivity.
Qed.

Lemma as_assignment_name (n : string) :
  mem_ascii "=" n = false -> as_assignment (marked false n) = None.
Proof.
  intros H. unfold as_assignment. now rewrite (assignment_parts_no_eq n H).
Qed.

Section ShellExecution.

Variable special : string -> bool.

Lemma sh_exec_line (n v : string) (e : sh_env) :
  is_identifier n = true -> special n = false ->
  sh_exec_all special (line_cmds (n, v)) e = Some (bind_decl e (n, v)).
Proof.
  intros Hid Hsp. unfold line_cmds. cbn [fst snd sh_exec_all sh_exec].
  rewrite (as_assignment_word _ n v Hid). cbn [sh_assign_all].
  rewrite (as_assignment_word _ n v Hid). rewrite Hsp.
  rewrite (as_assignment_name "export" eq_refl).
  rewrite word_text_marked. cbn [String.eqb sh_export_all].
  change (("export" =? "export")%string) with true. cbv iota.
  rewrite (as_assignment_name n (identifier_no_eq n Hid)).
  rewrite word_text_marked, Hid, Hsp. reflexivity.
Qed.

Lemma sh_exec_all_app (a b : list (list word)) :
  forall e,
    sh_exec_all special (a ++ b) e
    = match sh_exec_all special a e with
      | Some e' => sh_exec_all special b e'
      | None => None
      end.
Proof.
  induction a as [|c a IH]; intros e; cbn [app sh_exec_all].
  - reflexivity.
  - destruct (sh_exec special c e); [apply IH | reflexivity].
Qed.

Lemma sh_exec_prologue (decls : list (string * string)) :
  Forall (fun nv => is_identifier (fst nv) = true
                    /\ special (fst nv) = false) decls ->
  forall e,
    sh_exec_all special (flat_map line_cmds decls) e
    = Some (fold_left bind_decl decls e).
Proof.
  induction 1 as [|[n v] decls [Hn Hsp] _ IH]; intros e.
  - reflexivity.
  - cbn [flat_map fold_left]. cbn [fst] in Hn, Hsp.
    rewrite sh_exec_all_app, (sh_exec_line n v e Hn Hsp). apply IH.
Qed.

End ShellExecution.

(** *** What the shell has bound in the end *)

Lemma fold_bind_vars (decls : list (string * string)) :
  forall e,
    vars (fold_left bind_decl decls e) = (rev decls ++ vars e)%list
    /\ exported (fold_left bind_decl decls e)
       = (rev (map fst decls) ++ exported e)%list.
Proof.
  induction decls as [|[n v] decls IH]; intros e; cbn [fold_left].
  - split; reflexivity.
  - destruct (IH (bind_decl e (n, v))) as [Hv He]. rewrite Hv, He.
    cbn [bind_decl mark_exported set_var vars exported fst snd map rev].
    rewrite <- !app_assoc. split; reflexivity.
Qed.

Lemma assoc_not_bound (n : string) (l : list (string * string)) :
  existsb (String.eqb n) (map fst l) = false -> assoc n l = None.
Proof.
  induction l as [|[k v] l IH]; cbn [map fst existsb assoc]; intros H.
  - reflexivity.
  - apply orb_false_iff in H. destruct H as [Hk Hl]. rewrite Hk. exact (IH Hl).
Qed.

Lemma assoc_bound (n : string) (l : list (string * string)) :
  existsb (String.eqb n) (map fst l) = true -> exists v, assoc n l = Some v.
Proof.
  induction l as [|[k v] l IH]; cbn [map fst existsb assoc]; intros H.
  - discriminate H.
  - destruct (String.eqb n k); [eauto | exact (IH H)].
Qed.

Lemma assoc_app (n : string) (l l' : list (string * string)) :
  assoc n (l ++ l')
  = match assoc n l with Some v => Some v | None => assoc n l' end.
Proof.
  induction l as [|[k v] l IH]; cbn [app assoc]; [reflexivity|].
  destruct (String.eqb n k); [reflexivity | exact IH].
Qed.

(** After the prologue a declared name is exported with its last declared
    value; any other name is as it was. *)
Lemma getenv_after_prologue
  (decls : list (string * string)) (e0 : sh_env) (n : string) :
  sh_getenv n (fold_left bind_decl decls e0)
  = match assoc n (rev decls) with
    | Some v => Some v
    | None => sh_getenv n e0
    end.
Proof.
  unfold sh_getenv. destruct (fold_bind_vars decls e0) as [Hv He].
  rewrite Hv, He, existsb_app, assoc_app, <- map_rev.
  destruct (existsb (String.eqb n) (map fst (rev decls))) eqn:Hex.
  - destruct (assoc_bound n (rev decls) Hex) as [v Hv']. rewrite Hv'. reflexivity.
  - rewrite (assoc_not_bound n (rev decls) Hex). reflexivity.
Qed.

(** C3 as stated fails: a value is an arbitrary string, so it may hold a
    NUL byte, and a shell deletes that byte: for the declaration of [A]
    with the three bytes [a], NUL, [b], the shell binds [A] to [ab]. *)
Lemma shell_deletes_nul :
  ~ (forall (special : string -> bool) script decls,
        Forall (fun nv => is_identifier (fst nv) = true) decls ->
        exists prologue st,
          AddEnv script (map decl decls) = Returned (prologue ++ script, None)
          /\ sh_run special prologue sh_empty = Some st
          /\ forall n, sh_getenv n st = assoc n (rev decls)).
Proof.
  intros H.
  pose (v := String "a" (String nul (String "b" EmptyString))).
  destruct (H no_special "" [("A", v)]) as (prologue & st & HA & HR & HG).
  - constructor; [reflexivity | constructor].
  - rewrite append_nil_r in HA. vm_compute in HA. inversion HA; subst prologue.
    vm_compute in HR. inversion HR; subst st.
    specialize (HG "A"). vm_compute in HG. discriminate HG.
Qed.

(** C3, amended: for declarations whose names are shell identifiers that
    the shell treats as plain variables and whose values are arbitrary
    strings without a NUL byte, a POSIX shell that reads the prologue
    AddEnv returns, in whatever state it starts, ends with every declared
    name exported and bound to exactly the declared value (the last one,
    when a name is declared twice) and every other name as it was; the
    value is everything after the first ['='] of the declaration. *)
Theorem AddEnv_shell_round_trip
  (special : string -> bool) (script : string)
  (decls : list (string * string)) (e0 : sh_env) :
  Forall (fun nv => is_identifier (fst nv) = true
                    /\ special (fst nv) = false
                    /\ mem_ascii nul (snd nv) = false) decls ->
  exists prologue st,
    AddEnv script (map decl decls) = Returned (prologue ++ script, None)
    /\ sh_run special prologue e0 = Some st
    /\ forall n,
         sh_getenv n st
         = match assoc n (rev decls) with
           | Some v => Some v
           | None => sh_getenv n e0
           end.
Proof.
  intros Hd.
  exists (concat_lines (map export_line decls)), (fold_left bind_decl decls e0).
  split; [|split].
  - apply AddEnv_accepted. apply Forall_forall. intros nv Hin.
    rewrite Forall_forall in Hd. destruct (Hd nv Hin) as (Hid & _ & _). split.
    + now apply identifier_no_eq.
    + now apply identifier_Quote_fixed.
  - unfold sh_run. rewrite (sh_lex_prologue decls).
    + apply sh_exec_prologue. eapply Forall_impl; [|exact Hd].
      intros nv (Hid & Hsp & _). auto.
    + eapply Forall_impl; [|exact Hd]. intros nv (Hid & _ & Hn). auto.
  - intros n. apply getenv_after_prologue.
Qed.

Lemma AddEnv_shell_round_trip_witness :
  exists prologue st,
    AddEnv "echo $FOO" (map decl [("FOO", "it's a=b $HOME"); ("B_2", "")])
    = Returned (prologue ++ "echo $FOO", None)
    /\ sh_run (fun n => String.eqb n "UID") prologue
         (mkShEnv [("HOME", "/root")] ["HOME"])
       = Some st
    /\ forall n,
         sh_getenv n st
         = match assoc n (rev [("FOO", "it's a=b $HOME"); ("B_2", "")]) with
           | Some v => Some v
           | None => sh_getenv n (mkShEnv [("HOME", "/root")] ["HOME"])
           end.
Proof.
  apply (AddEnv_shell_round_trip (fun n => String.eqb n "UID") "echo $FOO"
           [("FOO", "it's a=b $HOME"); ("B_2", "")]
           (mkShEnv [("HOME", "/root")] ["HOME"])).
  constructor; [repeat split; reflexivity|].
  constructor; [repeat split; reflexivity|]. constructor.
Defined.

(** In a shell where [UID] is special the model gives up on a prologue
    that assigns it: nothing is promised for such a name. *)
Example special_name_not_bound :
  AddEnv "id" ["UID=12345"]
  = Returned ("UID=12345; export UID" ++ nl ++ "id", None)
  /\ sh_run (fun n => String.eqb n "UID") ("UID=12345; export UID" ++ nl) sh_empty
     = None.
Proof. split; reflexivity. Qed.

(** * Properties of the manager *)

(** Running the monad: unfold its operations and compute. *)
Ltac run_go :=
  unfold defer_, bind, get_self, ret, throw, ask, emit, deref, set_session,
    set_client, close_done, after, fire_done in *;
  cbn in *.

Section ManagerProperties.

Variable env : Collaborators.

(** *** mustBeConnected *)

Lemma mustBeConnected_ok (w : World) (c : ClientH) (ss : SessionH) :
  client (self w) = Some c -> session (self w) = Some ss ->
  mustBeConnected w = Ret None w.
Proof.
  intros Hc Hs. unfold mustBeConnected, bind, get_self, ret.
  rewrite Hc, Hs. reflexivity.
Qed.

Lemma mustBeConnected_fails (w : World) :
  client (self w) = None \/ session (self w) = None ->
  mustBeConnected w = Ret (Some err_not_connected) w.
Proof.
  intros H. unfold mustBeConnected, bind, get_self, ret.
  destruct H as [-> | ->]; [destruct (session (self w)) | ]; reflexivity.
Qed.

(** C8: on a manager whose client or session handle is absent, ExecScript
    and Shell return the "not connected" error at once: the world they
    leave, history included, is the one they found, so no collaborator was
    called. *)
Theorem exec_requires_connection (script : string) (w : World) :
  client (self w) = None \/ session (self w) = None ->
  ExecScript env script w = Ret (Some err_not_connected) w
  /\ Shell env w = Ret (Some err_not_connected) w.
Proof.
  intros H. unfold ExecScript, Shell, bind.
  rewrite (mustBeConnected_fails w H). split; reflexivity.
Qed.

(** *** Close *)

(** What Close does, case by case. *)
Lemma Close_cases (w : World) :
  let s := self w in
  let h := hist w in
  let closed (cl : option ClientH) (se : option SessionH) (evs : list Event) :=
    {| self := mkSSHClient (hostPort s) (sshConfig s) cl se true;
       hist := after h (evs ++ fire_done (done s)) |} in
  Close env w =
  match session s with
  | Some ss =>
      match session_Wait env h with
      | Some err => Ret (Some err) (closed (client s) (Some ss) [EvSessionWait ss])
      | None =>
          match client s with
          | Some c =>
              match client_Close env (after h [EvSessionWait ss]) with
              | Some err =>
                  Ret (Some err) (closed (Some c) None [EvSessionWait ss; EvClientClose c])
              | None => Ret None (closed None None [EvSessionWait ss; EvClientClose c])
              end
          | None => Ret None (closed None None [EvSessionWait ss])
          end
      end
  | None =>
      match client s with
      | Some c =>
          match client_Close env h with
          | Some err => Ret (Some err) (closed (Some c) None [EvClientClose c])
          | None => Ret None (closed None None [EvClientClose c])
          end
      | None => Ret None (closed None None [])
      end
  end.
Proof.
  destruct w as [[hp cfg cl se d] h].
  unfold Close, Close_deferred. run_go.
  destruct se as [ss|]; run_go.
  - destruct (session_Wait env h) as [err|]; run_go.
    + destruct d; reflexivity.
    + destruct cl as [c|]; run_go.
      * destruct (client_Close env (EvSessionWait ss :: h)) as [err|];
          destruct d; reflexivity.
      * destruct d; reflexivity.
  - destruct cl as [c|]; run_go.
    + destruct (client_Close env h) as [err|]; destruct d; reflexivity.
    + destruct d; reflexivity.
Qed.

(** Close always returns, leaves [done] closed, and closes it itself
    exactly when it was still open. *)
Lemma Close_total (w : World) :
  exists r w',
    Close env w = Ret r w'
    /\ done (self w') = true
    /\ count_done (hist w')
       = count_done (hist w) + (if done (self w) then 0 else 1).
Proof.
  rewrite Close_cases. destruct w as [[hp cfg cl se d] h]. cbn [self hist session client done].
  destruct se as [ss|]; [destruct (session_Wait env h)|];
    try (destruct cl as [c|]);
    try (destruct (client_Close env _));
    eexists; eexists; (split; [reflexivity|]);
    (split; [reflexivity|]); destruct d; run_go; lia.
Qed.

Lemma Close_times_total (n : nat) :
  forall w,
    exists w',
      Close_times env (S n) w = Ret tt w'
      /\ done (self w') = true
      /\ count_done (hist w')
         = count_done (hist w) + (if done (self w) then 0 else 1).
Proof.
  induction n as [|n IH]; intros w;
    destruct (Close_total w) as (r & w1 & HC & Hd & Hn).
  - exists w1. cbn [Close_times]. unfold bind, ret. rewrite HC. auto.
  - destruct (IH w1) as (w2 & HT & Hd2 & Hn2).
    exists w2. change (Close_times env (S (S n))) with (Close env ;;; Close_times env (S n)).
    unfold bind at 1. rewrite HC, HT. rewrite Hd in Hn2.
    repeat split; [assumption | lia].
Qed.

Lemma Close_success_state (w w1 : World) :
  Close env w = Ret None w1 ->
  client (self w1) = None /\ session (self w1) = None /\ done (self w1) = true.
Proof.
  rewrite Close_cases. destruct w as [[hp cfg cl se d] h]. cbn [self hist session client done].
  destruct se as [ss|]; [destruct (session_Wait env h)|];
    try (destruct cl as [c|]);
    try (destruct (client_Close env _));
    intros H; inversion H; subst; cbn; auto.
Qed.

Lemma Close_noop_when_closed (w : World) :
  client (self w) = None -> session (self w) = None -> done (self w) = true ->
  Close env w = Ret None w.
Proof.
  intros Hc Hs Hd. rewrite Close_cases.
  destruct w as [[hp cfg cl se d] h]. cbn in *. subst. reflexivity.
Qed.

(** C6 fails on the code: on a manager with a live session, when the
    session wait fails Close returns that error at once; whatever closing
    the connection would answer, [client.Close] is not called, no second
    error is reported, and both handles stay set. *)
Theorem Close_stops_at_wait_error (w : World) (ss : SessionH) (err : error) :
  session (self w) = Some ss ->
  session_Wait env (hist w) = Some err ->
  let s := self w in
  Close env w
  = Ret (Some err)
      {| self := mkSSHClient (hostPort s) (sshConfig s) (client s) (Some ss) true;
         hist := after (hist w) (EvSessionWait ss :: fire_done (done s)) |}.
Proof.
  intros Hs Hw. cbv zeta. rewrite Close_cases, Hs, Hw. reflexivity.
Qed.

(** C5, amended: a call to Close that follows a call which returned no
    error changes nothing and returns no error; and any number of calls in
    a row, whether they succeed or fail, return without panic and close the
    channel [done] exactly once (not at all when it was closed before). *)
Theorem Close_idempotent_after_success :
  (forall w w1, Close env w = Ret None w1 -> Close env w1 = Ret None w1)
  /\ (forall n w,
        exists w',
          Close_times env (S n) w = Ret tt w'
          /\ done (self w') = true
          /\ count_done (hist w')
             = count_done (hist w) + (if done (self w) then 0 else 1)).
Proof.
  split.
  - intros w w1 H. destruct (Close_success_state w w1 H) as (Hc & Hs & Hd).
    now apply Close_noop_when_closed.
  - intros n w. apply Close_times_total.
Qed.

(** *** dial *)

(** C4, amended: a failing dial of an unconnected manager leaves it not
    connected and without a session handle.  After a transport or a
    handshake failure nothing was stored and [done] is untouched.  After a
    session failure the connection is closed before the error is returned;
    the client handle is cleared when that succeeds, and kept, with both
    errors in the result, when it fails. *)
Theorem dial_failure (ctx : bool) (w w' : World) (err : error) :
  client (self w) = None -> session (self w) = None ->
  dial env ctx w = Ret (Some err) w' ->
  let s := self w in
  let h := hist w in
  let opened := [EvDialContext (hostPort s); EvGoWatcher ctx;
                 EvNewClientConn (hostPort s)] in
  session (self w') = None
  /\ mustBeConnected w' = Ret (Some err_not_connected) w'
  /\ ((net_DialContext env h = Some err
       /\ w' = {| self := s; hist := after h [EvDialContext (hostPort s)] |})
      \/ (net_DialContext env h = None
          /\ ssh_NewClientConn env
               (after h [EvDialContext (hostPort s); EvGoWatcher ctx]) = inl err
          /\ w' = {| self := s; hist := after h opened |})
      \/ (exists c serr,
            net_DialContext env h = None
            /\ ssh_NewClientConn env
                 (after h [EvDialContext (hostPort s); EvGoWatcher ctx]) = inr c
            /\ client_NewSession env (after h opened) = inl serr
            /\ hist w'
               = after h (opened ++ [EvNewSession c; EvClientClose c]
                                 ++ fire_done (done s))
            /\ done (self w') = true
            /\ match client_Close env (after h (opened ++ [EvNewSession c])) with
               | None =>
                   err = "session error: " ++ serr /\ client (self w') = None
               | Some cerr =>
                   err = "session error: " ++ serr ++ ", cleanup error: " ++ cerr
                   /\ client (self w') = Some c
               end)).
Proof.
  destruct w as [[hp cfg cl se d] h]. cbn [self hist client session].
  intros -> -> H. cbv zeta. cbn [self hist hostPort done].
  unfold dial, getClient, getSession in H. run_go.
  destruct (net_DialContext env h) as [e1|] eqn:E1; run_go.
  { inversion H; subst. cbn. repeat split. left. split; reflexivity. }
  destruct (ssh_NewClientConn env _) as [e2|c] eqn:E2; run_go.
  { inversion H; subst. cbn. repeat split. right; left. auto. }
  destruct (client_NewSession env _) as [e3|ss] eqn:E3; run_go; [|discriminate].
  rewrite Close_cases in H. run_go.
  destruct (client_Close env _) as [cerr|] eqn:E4;
    inversion H; subst; cbn; (split; [reflexivity|]); (split; [reflexivity|]);
    right; right; exists c, e3; rewrite E4; destruct d; cbn; repeat split; auto.
Qed.

(** A dial in which every step succeeds stores both handles. *)
Lemma dial_success (ctx : bool) (w : World) (c : ClientH) (ss : SessionH) :
  client (self w) = None -> session (self w) = None ->
  let s := self w in
  let h := hist w in
  let opened := [EvDialContext (hostPort s); EvGoWatcher ctx;
                 EvNewClientConn (hostPort s)] in
  net_DialContext env h = None ->
  ssh_NewClientConn env (after h [EvDialContext (hostPort s); EvGoWatcher ctx])
  = inr c ->
  client_NewSession env (after h opened) = inr ss ->
  dial env ctx w
  = Ret None
      {| self := mkSSHClient (hostPort s) (sshConfig s) (Some c) (Some ss) (done s);
         hist := after h (opened ++ [EvNewSession c]) |}.
Proof.
  destruct w as [[hp cfg cl se d] h]. cbn [self hist client session].
  intros -> -> H1 H2 H3. cbv zeta in *.
  unfold dial, getClient, getSession. run_go.
  rewrite H1. run_go. rewrite H2. run_go. rewrite H3. reflexivity.
Qed.

(** With a client handle in place getClient does nothing: it does not
    dial again. *)
Lemma getClient_keeps_client (ctx : bool) (w : World) (c : ClientH) :
  client (self w) = Some c -> getClient env ctx w = Ret None w.
Proof.
  intros H. unfold getClient. run_go. rewrite H. reflexivity.
Qed.

(** dial always returns: getSession only runs once a client is there. *)
Lemma dial_returns (ctx : bool) (w : World) :
  exists r w', dial env ctx w = Ret r w'.
Proof.
  destruct w as [[hp cfg cl se d] h].
  unfold dial, getClient, getSession. run_go.
  destruct cl as [c|]; run_go.
  - destruct se as [ss|]; run_go; [eauto|].
    destruct (client_NewSession env _) as [e3|ss]; run_go; [|eauto].
    destruct (Close_total {| self := mkSSHClient hp cfg (Some c) None d;
                             hist := EvNewSession c :: h |})
      as (r & w1 & HC & _).
    rewrite HC. destruct r; eauto.
  - destruct (net_DialContext env h); run_go; [eauto|].
    destruct (ssh_NewClientConn env _) as [e2|c]; run_go; [eauto|].
    destruct se as [ss|]; run_go; [eauto|].
    destruct (client_NewSession env _) as [e3|ss]; run_go; [|eauto].
    match goal with |- context [Close env ?W] =>
      destruct (Close_total W) as (r & w1 & HC & _) end.
    rewrite HC. destruct r; eauto.
Qed.

(** *** ExecScript *)

(** C9: on a connected manager, when the pipe, the shell request and the
    write succeed, ExecScript calls, in this order and nothing else before
    the teardown: StdinPipe, Shell, one Write of the script followed by one
    newline, Close of the pipe, Wait; it returns what Wait returned.  The
    deferred Close then closes the connection. *)
Theorem ExecScript_sequence
  (script : string) (w : World) (c : ClientH) (ss : SessionH) :
  client (self w) = Some c -> session (self w) = Some ss ->
  let h := hist w in
  session_StdinPipe env h = None ->
  session_Shell env (after h [EvStdinPipe ss]) = None ->
  inp_Write env (after h [EvStdinPipe ss; EvSessionShell ss]) = None ->
  exists w',
    ExecScript env script w
    = Ret (session_Wait env
             (after h [EvStdinPipe ss; EvSessionShell ss;
                       EvWrite (script ++ nl); EvStdinClose])) w'
    /\ hist w'
       = after h ([EvStdinPipe ss; EvSessionShell ss; EvWrite (script ++ nl);
                   EvStdinClose; EvSessionWait ss]
                  ++ [EvClientClose c] ++ fire_done (done (self w))).
Proof.
  destruct w as [[hp cfg cl se d] h]. cbn [self hist client session done].
  intros -> -> Hp Hs Hw. cbv zeta in *.
  unfold ExecScript, stdinPipe, mustBeConnected. run_go.
  rewrite Hp. run_go. rewrite Hs. run_go. rewrite Hw. run_go.
  rewrite Close_cases. run_go.
  destruct (client_Close env _); destruct d; eexists; split; reflexivity.
Qed.

(** When an earlier step fails, ExecScript returns its error and only the
    deferred Close follows. *)
Lemma ExecScript_shell_error
  (script : string) (w : World) (c : ClientH) (ss : SessionH) (err : error) :
  client (self w) = Some c -> session (self w) = Some ss ->
  session_StdinPipe env (hist w) = None ->
  session_Shell env (after (hist w) [EvStdinPipe ss]) = Some err ->
  exists r w1,
    Close env {| self := self w;
                 hist := after (hist w) [EvStdinPipe ss; EvSessionShell ss] |}
    = Ret r w1
    /\ ExecScript env script w = Ret (Some err) w1.
Proof.
  destruct w as [[hp cfg cl se d] h]. cbn [self hist client session done].
  intros -> -> Hp Hs.
  unfold ExecScript, stdinPipe, mustBeConnected. run_go.
  rewrite Hp. run_go. rewrite Hs. run_go.
  destruct (Close_total {| self := mkSSHClient hp cfg (Some c) (Some ss) d;
                           hist := EvSessionShell ss :: EvStdinPipe ss :: h |})
    as (r & w1 & HC & _).
  exists r, w1. rewrite HC. auto.
Qed.

(** ExecScript never panics: every pointer it follows was checked. *)
Lemma ExecScript_returns (script : string) (w : World) :
  exists r w', ExecScript env script w = Ret r w'.
Proof.
  destruct w as [[hp cfg cl se d] h].
  unfold ExecScript, stdinPipe, mustBeConnected. run_go.
  destruct se as [ss|]; run_go; [|eauto].
  destruct cl as [c|]; run_go; [|eauto].
  destruct (session_StdinPipe env h); run_go.
  { match goal with |- context [Close env ?W] =>
      destruct (Close_total W) as (r & w1 & HC & _) end.
    rewrite HC. eauto. }
  destruct (session_Shell env _); run_go.
  { match goal with |- context [Close env ?W] =>
      destruct (Close_total W) as (r & w1 & HC & _) end.
    rewrite HC. eauto. }
  destruct (inp_Write env _); run_go;
    match goal with |- context [Close env ?W] =>
      destruct (Close_total W) as (r & w1 & HC & _) end;
    rewrite HC; eauto.
Qed.

(** Once ExecScript has reached the wait, the manager is no longer
    connected, whatever Wait and the teardown returned. *)
Lemma ExecScript_after_wait_not_connected
  (script : string) (w : World) (c : ClientH) (ss : SessionH) :
  client (self w) = Some c -> session (self w) = Some ss ->
  let h := hist w in
  session_StdinPipe env h = None ->
  session_Shell env (after h [EvStdinPipe ss]) = None ->
  inp_Write env (after h [EvStdinPipe ss; EvSessionShell ss]) = None ->
  exists r w',
    ExecScript env script w = Ret r w'
    /\ session (self w') = None
    /\ mustBeConnected w' = Ret (Some err_not_connected) w'.
Proof.
  destruct w as [[hp cfg cl se d] h]. cbn [self hist client session done].
  intros -> -> Hp Hs Hw. cbv zeta in *.
  unfold ExecScript, stdinPipe, mustBeConnected. run_go.
  rewrite Hp. run_go. rewrite Hs. run_go. rewrite Hw. run_go.
  rewrite Close_cases. run_go.
  destruct (client_Close env _); destruct d; eexists; eexists;
    (split; [reflexivity|]); split; reflexivity.
Qed.

End ManagerProperties.

(** *** Witnesses and failing runs *)

(** [connected_world] is what Dial makes of [fresh_world]. *)
Lemma Dial_connects (wait_r close_r shell_r raw_r : option error) :
  Dial (scripted wait_r close_r shell_r raw_r (inr 2)) fresh_world
  = Ret None connected_world.
Proof. reflexivity. Qed.

Lemma exec_requires_connection_witness :
  ExecScript (scripted None None None None (inr 2)) "true" fresh_world
  = Ret (Some err_not_connected) fresh_world
  /\ Shell (scripted None None None None (inr 2)) fresh_world
     = Ret (Some err_not_connected) fresh_world.
Proof.
  apply (exec_requires_connection (scripted None None None None (inr 2))
           "true" fresh_world).
  left. reflexivity.
Defined.

Lemma ExecScript_sequence_witness :
  exists w',
    ExecScript (scripted (Some "Process exited with status 3") None None None (inr 2))
      "exit 3" connected_world
    = Ret (Some "Process exited with status 3") w'
    /\ hist w'
       = after (hist connected_world)
           [EvStdinPipe 2; EvSessionShell 2; EvWrite ("exit 3" ++ nl);
            EvStdinClose; EvSessionWait 2; EvClientClose 1; EvCloseDone].
Proof.
  apply (ExecScript_sequence
           (scripted (Some "Process exited with status 3") None None None (inr 2))
           "exit 3" connected_world 1 2); reflexivity.
Defined.

(** C5 as stated fails: after a Close that could not close the connection,
    the next Close is not a no-op; it closes the connection again and
    returns that error again. *)
Lemma Close_again_after_failed_close :
  ~ (forall env w r1 w1,
        Close env w = Ret r1 w1 -> Close env w1 = Ret None w1).
Proof.
  intros H.
  pose (E := scripted None (Some "close: broken pipe") None None (inr 2)).
  destruct (Close E connected_world) as [r1 w1|p w1] eqn:HC.
  - specialize (H E connected_world r1 w1 HC).
    vm_compute in HC. inversion HC; subst. vm_compute in H. discriminate H.
  - vm_compute in HC. discriminate HC.
Qed.

Lemma Close_idempotent_after_success_witness :
  let closed :=
    {| self := mkSSHClient "host:22" (OpaqueConfig 0) None None true;
       hist := after (hist connected_world)
                 [EvSessionWait 2; EvClientClose 1; EvCloseDone] |} in
  Close (scripted None None None None (inr 2)) connected_world = Ret None closed
  /\ Close (scripted None None None None (inr 2)) closed = Ret None closed.
Proof.
  cbv zeta. split; [reflexivity|].
  apply (proj1 (Close_idempotent_after_success (scripted None None None None (inr 2)))
           connected_world).
  reflexivity.
Defined.

(** The failing run of C6: the wait fails, the close would fail too; only
    the wait error comes back and the connection is never closed. *)
Lemma Close_stops_at_wait_error_witness :
  Close (scripted (Some "wait: remote exit 1") (Some "close: broken pipe")
           None None (inr 2)) connected_world
  = Ret (Some "wait: remote exit 1")
      {| self := mkSSHClient "host:22" (OpaqueConfig 0) (Some 1) (Some 2) true;
         hist := after (hist connected_world) [EvSessionWait 2; EvCloseDone] |}.
Proof.
  apply (Close_stops_at_wait_error
           (scripted (Some "wait: remote exit 1") (Some "close: broken pipe")
              None None (inr 2))
           connected_world 2 "wait: remote exit 1"); reflexivity.
Defined.

(** C4 as stated fails: when the session cannot be opened and closing the
    connection fails as well, dial returns with the client handle still
    set, and a later getClient does not dial again. *)
Lemma dial_keeps_client_when_cleanup_fails :
  ~ (forall env ctx w err w',
        client (self w) = None -> session (self w) = None ->
        dial env ctx w = Ret (Some err) w' ->
        client (self w') = None /\ session (self w') = None).
Proof.
  intros H.
  pose (E := scripted None (Some "close: broken pipe") None None
               (inl "ssh: rejected: administratively prohibited")).
  destruct (dial E true fresh_world) as [[err|] w'|p w'] eqn:HD;
    try (vm_compute in HD; discriminate HD).
  destruct (H E true fresh_world err w' eq_refl eq_refl HD) as [Hc _].
  vm_compute in HD. inversion HD; subst. discriminate Hc.
Qed.

Lemma dial_failure_witness :
  exists w',
    dial (scripted None (Some "close: broken pipe") None None (inl "rejected"))
      true fresh_world
    = Ret (Some "session error: rejected, cleanup error: close: broken pipe") w'
    /\ session (self w') = None
    /\ mustBeConnected w' = Ret (Some err_not_connected) w'.
Proof.
  eexists. split; [reflexivity|].
  pose proof (dial_failure
                (scripted None (Some "close: broken pipe") None None (inl "rejected"))
                true fresh_world _ _ eq_refl eq_refl eq_refl) as H.
  cbv zeta in H. destruct H as (Hs & Hm & _). split; assumption.
Defined.

(** C7 fails on the code: on a connected manager whose remote shell cannot
    be started (ExecScript), or whose local terminal cannot be put in raw
    mode (Shell), the deferred Close waits on the session that never
    started, gets an error and stops; the operation returns with both
    handles set, and the next ExecScript is not refused: it calls the
    session again. *)
Theorem exec_reusable_after_failure :
  let E := scripted (Some "ssh: session not started") None
             (Some "ssh: could not start shell")
             (Some "inappropriate ioctl for device") (inr 2) in
  let left_by_exec :=
    {| self := mkSSHClient "host:22" (OpaqueConfig 0) (Some 1) (Some 2) true;
       hist := after (hist connected_world)
                 [EvStdinPipe 2; EvSessionShell 2; EvSessionWait 2; EvCloseDone] |} in
  let left_by_shell :=
    {| self := mkSSHClient "host:22" (OpaqueConfig 0) (Some 1) (Some 2) true;
       hist := after (hist connected_world)
                 [EvMakeRaw; EvSessionWait 2; EvCloseDone] |} in
  ExecScript E "true" connected_world
  = Ret (Some "ssh: could not start shell") left_by_exec
  /\ Shell E connected_world
     = Ret (Some "inappropriate ioctl for device") left_by_shell
  /\ mustBeConnected left_by_exec = Ret None left_by_exec
  /\ mustBeConnected left_by_shell = Ret None left_by_shell
  /\ ExecScript E "true" left_by_exec
     = Ret (Some "ssh: could not start shell")
         {| self := self left_by_exec;
            hist := after (hist left_by_exec)
                      [EvStdinPipe 2; EvSessionShell 2; EvSessionWait 2] |}
  /\ ExecScript E "true" left_by_shell
     = Ret (Some "ssh: could not start shell")
         {| self := self left_by_shell;
            hist := after (hist left_by_shell)
                      [EvStdinPipe 2; EvSessionShell 2; EvSessionWait 2] |}.
Proof. cbv zeta. repeat split. Qed.

(** A complete run of Shell with one resize while the remote shell runs:
    raw mode, size, pty, streams, shell, resize forwarded, wait, the worker
    stopped, the terminal restored, then the teardown. *)
Example Shell_run :
  let E :=
    {| net_DialContext := fun _ => None;
       ssh_NewClientConn := fun _ => inr 1;
       client_NewSession := fun _ => inr 2;
       session_Wait := fun _ => None;
       client_Close := fun _ => None;
       session_StdinPipe := fun _ => None;
       session_Shell := fun _ => None;
       inp_Write := fun _ => None;
       terminal_MakeRaw := fun _ => None;
       terminal_GetSize := fun _ => inr (80, 24);
       session_RequestPty := fun _ => None;
       sigwinch_sizes :=
         fun h => match h with EvSignalNotify :: _ => [(100, 40)] | _ => [] end |} in
  Shell E connected_world
  = Ret None
      {| self := mkSSHClient "host:22" (OpaqueConfig 0) None None true;
         hist := after (hist connected_world)
                   [EvMakeRaw; EvGetSize; EvRequestPty 2 "xterm" 24 80;
                    EvSetStdio 2; EvSessionShell 2; EvSignalNotify;
                    EvGetSize; EvWindowChange 40 100; EvSessionWait 2;
                    EvCloseSigChan; EvWgWait; EvRestore;
                    EvClientClose 1; EvCloseDone] |}.
Proof. reflexivity. Qed.

(** * More on AddEnv: every outcome, and how prologues compose *)

(** One turn of the loop. *)
Lemma AddEnv_loop_step (envBlob kv : string) (rest : list string) :
  AddEnv_loop envBlob (kv :: rest)
  = if negb (String.eqb (decl_name kv) (Quote (decl_name kv)))
    then inl (Returned ("", Some name_error))
    else if has_eq kv
         then AddEnv_loop (envBlob ++ prologue_line kv) rest
         else inl (Panicked (IndexOutOfRange 1 1)).
Proof.
  cbn [AddEnv_loop]. destruct (has_eq kv) eqn:He.
  - destruct (cut_has_eq kv He) as (a & b & Hcut).
    assert (HS : SplitN kv "=" 2 = [a; b]) by (cbn [SplitN]; now rewrite Hcut).
    rewrite HS. unfold prologue_line, decl_name, decl_value. rewrite Hcut.
    cbn [index_slice nth_error]. destruct (negb (a =? Quote a)); reflexivity.
  - rewrite (SplitN_without_eq kv He). unfold decl_name.
    rewrite (cut_none kv He). cbn [index_slice nth_error].
    destruct (negb (kv =? Quote kv)); reflexivity.
Qed.

Lemma name_check (kv : string) :
  negb (String.eqb (decl_name kv) (Quote (decl_name kv))) = false
  <-> Quote (decl_name kv) = decl_name kv.
Proof.
  rewrite negb_false_iff, String.eqb_eq. split; intros H; now symmetry.
Qed.

Lemma AddEnv_loop_through_clean (pre : list string) :
  Forall clean pre ->
  forall envBlob rest,
    AddEnv_loop envBlob (pre ++ rest)
    = AddEnv_loop (envBlob ++ concat_lines (map prologue_line pre)) rest.
Proof.
  induction 1 as [|kv pre [He Hq] _ IH]; intros envBlob rest.
  - cbn. now rewrite append_nil_r.
  - cbn [app map concat_lines]. rewrite AddEnv_loop_step.
    rewrite (proj2 (name_check kv) Hq), He, IH, append_assoc. reflexivity.
Qed.

(** What the loop does at a declaration that is not clean. *)
Lemma AddEnv_loop_offender (envBlob kv : string) (post : list string) :
  ~ clean kv ->
  (Quote (decl_name kv) <> decl_name kv
   /\ AddEnv_loop envBlob (kv :: post) = inl (Returned ("", Some name_error)))
  \/ (Quote kv = kv /\ has_eq kv = false
      /\ AddEnv_loop envBlob (kv :: post) = inl (Panicked (IndexOutOfRange 1 1))).
Proof.
  intros Hn. rewrite AddEnv_loop_step.
  destruct (negb (String.eqb (decl_name kv) (Quote (decl_name kv)))) eqn:Hc.
  - left. split; [|reflexivity]. intros Hq.
    apply name_check in Hq. congruence.
  - apply name_check in Hc. destruct (has_eq kv) eqn:He.
    + exfalso. apply Hn. split; assumption.
    + right. repeat split.
      unfold decl_name in Hc. rewrite (cut_none kv He) in Hc. exact Hc.
Qed.

Lemma clean_dec (kv : string) : clean kv \/ ~ clean kv.
Proof.
  unfold clean. destruct (has_eq kv).
  - destruct (string_dec (Quote (decl_name kv)) (decl_name kv)) as [E|E].
    + left. auto.
    + right. intros [_ H]. contradiction.
  - right. intros [H _]. discriminate.
Qed.

(** A list is clean throughout or has a first declaration that is not. *)
Lemma first_offender (env : list string) :
  Forall clean env
  \/ exists pre kv post,
       env = (pre ++ kv :: post)%list /\ Forall clean pre /\ ~ clean kv.
Proof.
  induction env as [|kv env IH].
  - left. constructor.
  - destruct (clean_dec kv) as [Hc|Hc].
    + destruct IH as [IH | (pre & k & post & -> & Hpre & Hk)].
      * left. now constructor.
      * right. exists (kv :: pre), k, post. repeat split; auto.
    + right. exists [], kv, env. repeat split; auto.
Qed.

Lemma AddEnv_clean (script : string) (env : list string) :
  Forall clean env ->
  AddEnv script env
  = Returned (concat_lines (map prologue_line env) ++ script, None).
Proof.
  intros H. unfold AddEnv.
  rewrite <- (app_nil_r env) at 1.
  rewrite (AddEnv_loop_through_clean env H). reflexivity.
Qed.

Lemma AddEnv_at_offender (script : string) (pre : list string) (kv : string)
  (post : list string) :
  Forall clean pre -> ~ clean kv ->
  (Quote (decl_name kv) <> decl_name kv
   /\ AddEnv script (pre ++ kv :: post) = Returned ("", Some name_error))
  \/ (Quote kv = kv /\ has_eq kv = false
      /\ AddEnv script (pre ++ kv :: post) = Panicked (IndexOutOfRange 1 1)).
Proof.
  intros Hpre Hkv. unfold AddEnv.
  rewrite (AddEnv_loop_through_clean pre Hpre).
  destruct (AddEnv_loop_offender
              ("" ++ concat_lines (map prologue_line pre)) kv post Hkv)
    as [[Hq ->] | (Hq & He & ->)]; [left | right]; auto.
Qed.

(** X1: AddEnv returns without error exactly on the lists all of whose
    declarations contain ['='] and have a name that passes the check. *)
Theorem AddEnv_succeeds_iff (script : string) (env : list string) :
  (exists r, AddEnv script env = Returned (r, None)) <-> Forall clean env.
Proof.
  split.
  - intros [r Hr]. destruct (first_offender env)
      as [H | (pre & kv & post & -> & Hpre & Hkv)]; [exact H|].
    destruct (AddEnv_at_offender script pre kv post Hpre Hkv)
      as [[_ E] | (_ & _ & E)]; rewrite E in Hr; discriminate Hr.
  - intros H. eexists. apply (AddEnv_clean script env H).
Qed.

(** X2: AddEnv panics exactly when the first declaration that is not clean
    has no ['='] and passes the name check as a whole; the panic is always
    the read of index 1 of a one-element slice. *)
Theorem AddEnv_panics_iff (script : string) (env : list string) (p : panic) :
  AddEnv script env = Panicked p
  <-> p = IndexOutOfRange 1 1
      /\ exists pre kv post,
           env = (pre ++ kv :: post)%list /\ Forall clean pre
           /\ has_eq kv = false /\ Quote kv = kv.
Proof.
  split.
  - intros Hp. destruct (first_offender env)
      as [H | (pre & kv & post & -> & Hpre & Hkv)].
    + rewrite (AddEnv_clean script env H) in Hp. discriminate Hp.
    + destruct (AddEnv_at_offender script pre kv post Hpre Hkv)
        as [[_ E] | (Hq & He & E)]; rewrite E in Hp; [discriminate Hp|].
      inversion Hp; subst. split; [reflexivity|].
      exists pre, kv, post. auto.
  - intros (-> & pre & kv & post & -> & Hpre & He & Hq).
    assert (Hkv : ~ clean kv) by (intros [H _]; congruence).
    destruct (AddEnv_at_offender script pre kv post Hpre Hkv)
      as [[Hn _] | (_ & _ & E)]; [|exact E].
    exfalso. apply Hn. unfold decl_name. now rewrite (cut_none kv He).
Qed.

(** X3: AddEnv returns an error exactly when the first declaration that is not
    clean has a name Quote would change; the result then is the empty
    string with the one validation error, whatever came before. *)
Theorem AddEnv_fails_iff
  (script : string) (env : list string) (s : string) (e : error) :
  AddEnv script env = Returned (s, Some e)
  <-> s = "" /\ e = name_error
      /\ exists pre kv post,
           env = (pre ++ kv :: post)%list /\ Forall clean pre
           /\ Quote (decl_name kv) <> decl_name kv.
Proof.
  split.
  - intros Hr. destruct (first_offender env)
      as [H | (pre & kv & post & -> & Hpre & Hkv)].
    + rewrite (AddEnv_clean script env H) in Hr. discriminate Hr.
    + destruct (AddEnv_at_offender script pre kv post Hpre Hkv)
        as [[Hq E] | (_ & _ & E)]; rewrite E in Hr; [|discriminate Hr].
      inversion Hr; subst. repeat split. exists pre, kv, post. auto.
  - intros (-> & -> & pre & kv & post & -> & Hpre & Hq).
    assert (Hkv : ~ clean kv) by (intros [_ H]; contradiction).
    destruct (AddEnv_at_offender script pre kv post Hpre Hkv)
      as [[_ E] | (Hq' & He & _)]; [exact E|].
    exfalso. apply Hq. unfold decl_name. now rewrite (cut_none kv He).
Qed.

(** *** Composition *)

Lemma AddEnv_loop_app (e1 e2 : list string) :
  forall envBlob,
    AddEnv_loop envBlob (e1 ++ e2)
    = match AddEnv_loop envBlob e1 with
      | inl r => inl r
      | inr b => AddEnv_loop b e2
      end.
Proof.
  induction e1 as [|kv e1 IH]; intros envBlob.
  - reflexivity.
  - cbn [app]. rewrite !AddEnv_loop_step.
    destruct (negb _); [reflexivity|]. destruct (has_eq kv); [apply IH | reflexivity].
Qed.

(** The accumulator is only ever extended. *)
Lemma AddEnv_loop_prefix (env : list string) :
  forall envBlob,
    AddEnv_loop envBlob env
    = match AddEnv_loop "" env with
      | inl r => inl r
      | inr b => inr (envBlob ++ b)
      end.
Proof.
  induction env as [|kv env IH]; intros envBlob.
  - cbn. now rewrite append_nil_r.
  - rewrite !AddEnv_loop_step.
    destruct (negb _); [reflexivity|]. destruct (has_eq kv); [|reflexivity].
    rewrite IH. rewrite (IH ("" ++ prologue_line kv)).
    destruct (AddEnv_loop "" env); [reflexivity|].
    cbn [append]. now rewrite append_assoc.
Qed.

(** The loop leaves early only with the validation error or the panic. *)
Lemma AddEnv_loop_early (env : list string) :
  forall envBlob r,
    AddEnv_loop envBlob env = inl r ->
    r = Returned ("", Some name_error) \/ r = Panicked (IndexOutOfRange 1 1).
Proof.
  induction env as [|kv env IH]; intros envBlob r.
  - discriminate.
  - rewrite AddEnv_loop_step. destruct (negb _).
    + intros H. inversion H. auto.
    + destruct (has_eq kv); [apply IH|]. intros H. inversion H. auto.
Qed.

(** X4: Prepending twice is prepending the concatenated list: when a second
    injection succeeded, injecting [env1] in front of its result is the
    injection of [env1 ++ env2] in the original script, outcome for
    outcome. *)
Theorem AddEnv_compose (script s2 : string) (env1 env2 : list string) :
  AddEnv script env2 = Returned (s2, None) ->
  AddEnv s2 env1 = AddEnv script (env1 ++ env2).
Proof.
  unfold AddEnv. intros H2. rewrite AddEnv_loop_app.
  destruct (AddEnv_loop "" env1) as [r|b1]; [reflexivity|].
  rewrite (AddEnv_loop_prefix env2 b1).
  destruct (AddEnv_loop "" env2) as [r|b2] eqn:E2.
  - destruct (AddEnv_loop_early env2 "" r E2) as [-> | ->]; discriminate H2.
  - inversion H2; subst. now rewrite append_assoc.
Qed.

(** * The first version of AddEnv *)

Lemma unchecked_loop (env : list string) :
  forall envBlob,
    EnvFirstVersion.AddEnv_loop envBlob env
    = inr (envBlob
           ++ concat_lines (map EnvFirstVersion.unchecked_line env)).
Proof.
  induction env as [|kv env IH]; intros envBlob.
  - cbn. now rewrite append_nil_r.
  - cbn [EnvFirstVersion.AddEnv_loop map concat_lines].
    unfold index_slice. rewrite SplitN_head, IH, append_assoc. reflexivity.
Qed.

(** X5: The first version never fails: for every list, declarations without
    ['='] and odd names included, it returns without error or panic one
    line [kv ; export  NAME] per declaration, then the script. *)
Theorem unchecked_AddEnv_always_returns (script : string) (env : list string) :
  EnvFirstVersion.AddEnv script env
  = Returned (concat_lines (map EnvFirstVersion.unchecked_line env) ++ script,
              None).
Proof. unfold EnvFirstVersion.AddEnv. now rewrite unchecked_loop. Qed.

Lemma decl_name_decl (n v : string) :
  mem_ascii "=" n = false -> decl_name (decl (n, v)) = n.
Proof.
  intros H. unfold decl_name, decl. cbn [fst snd]. now rewrite (cut_decl n v H).
Qed.

Lemma lex_run_blank_semi_export (w : word) cs :
  lex_run (mkLex Unquoted (Some w) [] cs) " ; export  "
  = Some (mkLex Unquoted None [marked false "export"] (cs ++ [[w]])%list).
Proof. reflexivity. Qed.

Lemma lex_run_unchecked_line (n v : string) cs :
  is_identifier n = true -> all_chars quote_safe v = true ->
  lex_run (mkLex Unquoted None [] cs) (EnvFirstVersion.unchecked_line (decl (n, v)))
  = Some (mkLex Unquoted None [] (cs ++ line_cmds (n, v))%list).
Proof.
  intros Hid Hv. destruct (identifier_safe n Hid) as [Hne Hsafe].
  unfold EnvFirstVersion.unchecked_line.
  rewrite (decl_name_decl n v (identifier_no_eq n Hid)).
  unfold decl, line_cmds, pattern_MatchString. cbn [fst snd]. rewrite Hv. cbn [negb].
  rewrite lex_run_app, lex_run_app, (lex_run_safe_new n Hne Hsafe). cbv beta iota.
  rewrite lex_run_app.
  change (lex_run (mkLex Unquoted (Some (marked false n)) [] cs) "=")
    with (Some (mkLex Unquoted (Some (marked false n ++ [("="%char, false)])%list) [] cs)).
  cbv beta iota. rewrite (lex_run_safe v Hv). cbv beta iota.
  rewrite lex_run_app, lex_run_blank_semi_export. cbv beta iota.
  rewrite lex_run_app, (lex_run_safe_new n Hne Hsafe). cbv beta iota.
  rewrite lex_run_end_of_line.
  rewrite <- !app_assoc. reflexivity.
Qed.

Lemma lex_run_unchecked_prologue (decls : list (string * string)) :
  Forall (fun nv => is_identifier (fst nv) = true
                    /\ all_chars quote_safe (snd nv) = true) decls ->
  forall cs,
    lex_run (mkLex Unquoted None [] cs)
      (concat_lines (map EnvFirstVersion.unchecked_line (map decl decls)))
    = Some (mkLex Unquoted None [] (cs ++ flat_map line_cmds decls)%list).
Proof.
  induction 1 as [|[n v] decls [Hn Hv] _ IH]; intros cs.
  - cbn. now rewrite app_nil_r.
  - cbn [map concat_lines flat_map]. cbn [fst snd] in Hn, Hv.
    rewrite lex_run_app, (lex_run_unchecked_line n v cs Hn Hv). cbv beta iota.
    rewrite IH, app_assoc. reflexivity.
Qed.

(** X6: Where no value needs quoting (every byte of every value is in
    [A-Za-z0-9_@%+=:,./-], the empty value included) and the names are
    identifiers the shell treats as plain variables, a POSIX shell reads
    the prologue of the first version as it reads the one of the current
    version: in whatever state it starts, every declared name ends
    exported and bound to its declared value, every other name as it
    was. *)
Theorem unchecked_AddEnv_safe_values
  (special : string -> bool) (script : string)
  (decls : list (string * string)) (e0 : sh_env) :
  Forall (fun nv => is_identifier (fst nv) = true
                    /\ special (fst nv) = false
                    /\ all_chars quote_safe (snd nv) = true) decls ->
  exists prologue st,
    EnvFirstVersion.AddEnv script (map decl decls)
    = Returned (prologue ++ script, None)
    /\ sh_run special prologue e0 = Some st
    /\ forall n,
         sh_getenv n st
         = match assoc n (rev decls) with
           | Some v => Some v
           | None => sh_getenv n e0
           end.
Proof.
  intros H.
  exists (concat_lines (map EnvFirstVersion.unchecked_line (map decl decls))),
         (fold_left bind_decl decls e0).
  split; [|split].
  - apply unchecked_AddEnv_always_returns.
  - unfold sh_run, sh_lex, lex_start.
    rewrite (lex_run_unchecked_prologue decls).
    + cbn [mode cur words cmds end_word app].
      apply sh_exec_prologue. eapply Forall_impl; [|exact H].
      intros nv (Hn & Hsp & _). auto.
    + eapply Forall_impl; [|exact H]. intros nv (Hn & _ & Hv). auto.
  - intros n. apply getenv_after_prologue.
Qed.

Lemma unchecked_AddEnv_safe_values_witness :
  exists prologue st,
    EnvFirstVersion.AddEnv "make" (map decl [("CC", "gcc"); ("PREFIX", "/usr/local")])
    = Returned (prologue ++ "make", None)
    /\ sh_run (fun n => String.eqb n "UID") prologue
         (mkShEnv [("CC", "cc")] ["CC"])
       = Some st
    /\ forall n,
         sh_getenv n st
         = match assoc n (rev [("CC", "gcc"); ("PREFIX", "/usr/local")]) with
           | Some v => Some v
           | None => sh_getenv n (mkShEnv [("CC", "cc")] ["CC"])
           end.
Proof.
  apply (unchecked_AddEnv_safe_values (fun n => String.eqb n "UID") "make"
           [("CC", "gcc"); ("PREFIX", "/usr/local")]
           (mkShEnv [("CC", "cc")] ["CC"])).
  constructor; [repeat split; reflexivity|].
  constructor; [repeat split; reflexivity|]. constructor.
Defined.

(** A value with a space is where the two versions part: the first
    version's line is no longer a lone assignment, and the model of the
    shell gives up on the command that follows the assignment. *)
Example unchecked_AddEnv_space :
  EnvFirstVersion.AddEnv "echo $FOO" ["FOO=bar baz"]
  = Returned ("FOO=bar baz ; export  FOO" ++ nl ++ "echo $FOO", None)
  /\ sh_run no_special ("FOO=bar baz ; export  FOO" ++ nl) sh_empty = None.
Proof. split; reflexivity. Qed.

Lemma AddEnv_compose_witness :
  AddEnv ("B='2 3'; export B" ++ nl ++ "echo") ["A=1"]
  = AddEnv "echo" (["A=1"] ++ ["B=2 3"]).
Proof.
  apply (AddEnv_compose "echo" ("B='2 3'; export B" ++ nl ++ "echo")
           ["A=1"] ["B=2 3"]).
  reflexivity.
Defined.

(** * More on the manager: invariants, teardown, and Shell *)

Lemma after_app (h a b : list Event) : after h (a ++ b) = after (after h a) b.
Proof. unfold after. now rewrite rev_app_distr, <- app_assoc. Qed.

Lemma count_restore_after (h evs : list Event) :
  count_restore (after h evs) = count_restore evs + count_restore h.
Proof.
  unfold count_restore, after.
  rewrite filter_app, length_app, filter_rev, length_rev. reflexivity.
Qed.

Lemma count_restore_resizes (sizes : list (nat * nat)) :
  count_restore (resize_events sizes) = 0.
Proof. induction sizes as [|[wd ht] sizes IH]; [reflexivity | exact IH]. Qed.

Lemma count_done_cons (e : Event) (h : list Event) :
  count_done (e :: h)
  = (match e with EvCloseDone => 1 | _ => 0 end) + count_done h.
Proof. destruct e; reflexivity. Qed.

Lemma count_done_app (a b : list Event) :
  count_done (a ++ b) = count_done a + count_done b.
Proof.
  induction a as [|e a IH]; [reflexivity|].
  cbn [app]. rewrite !count_done_cons, IH. lia.
Qed.

Lemma count_done_after (h evs : list Event) :
  count_done (after h evs) = count_done evs + count_done h.
Proof.
  unfold after. rewrite count_done_app. f_equal.
  induction evs as [|e evs IH]; [reflexivity|].
  cbn [rev]. rewrite count_done_app, IH, !count_done_cons. cbn. lia.
Qed.

Lemma count_done_resizes (sizes : list (nat * nat)) :
  count_done (resize_events sizes) = 0.
Proof. induction sizes as [|[wd ht] sizes IH]; [reflexivity | exact IH]. Qed.

Section ManagerInvariants.

Variable env : Collaborators.

(** With a session in place the resize worker reads each size and
    forwards it. *)
Lemma forward_resizes_run (sizes : list (nat * nat)) :
  forall w,
    session (self w) <> None ->
    forward_resizes sizes w
    = Ret tt {| self := self w; hist := after (hist w) (resize_events sizes) |}.
Proof.
  induction sizes as [|[wd ht] sizes IH]; intros [s h] Hs.
  - reflexivity.
  - cbn [forward_resizes]. unfold bind, emit, ask, get_self, deref, ret.
    cbn [self hist] in *. destruct (session s) as [ss|] eqn:Ess; [|congruence].
    rewrite IH by (cbn [self]; congruence).
    cbn [self hist resize_events flat_map fst snd].
    change (EvGetSize :: EvWindowChange ht wd :: flat_map _ sizes)
      with ([EvGetSize; EvWindowChange ht wd] ++ resize_events sizes)%list.
    rewrite (after_app h). reflexivity.
Qed.

(** Without a session the worker follows a nil pointer at the first
    notification. *)
Lemma forward_resizes_cleared (wd ht : nat) (sizes : list (nat * nat)) (w : World) :
  session (self w) = None ->
  forward_resizes ((wd, ht) :: sizes) w
  = Pan NilDereference {| self := self w; hist := EvGetSize :: hist w |}.
Proof.
  intros Hs. cbn [forward_resizes].
  unfold bind, emit, ask, get_self, deref, ret, throw. cbn [self hist].
  rewrite Hs. reflexivity.
Qed.

(** What any run of Close leaves behind. *)
Lemma Close_effect (w : World) :
  exists r w',
    Close env w = Ret r w'
    /\ done (self w') = true
    /\ count_done (hist w')
       = count_done (hist w) + (if done (self w) then 0 else 1)
    /\ count_restore (hist w') = count_restore (hist w)
    /\ (session_needs_client (self w) -> session_needs_client (self w'))
    /\ (session (self w) = None -> session (self w') = None)
    /\ (r = None <-> client (self w') = None /\ session (self w') = None).
Proof.
  rewrite Close_cases. destruct w as [[hp cfg cl se d] h].
  unfold session_needs_client. cbn [self hist session client done].
  destruct se as [ss|]; [destruct (session_Wait env h)|];
    try (destruct cl as [c|]);
    try (destruct (client_Close env _));
    eexists; eexists; (split; [reflexivity|]);
    cbn [self hist session client done];
    (split; [reflexivity|]);
    (split; [destruct d; cbn; lia|]);
    (split; [destruct d; reflexivity|]);
    (split; [intros H; try exact H; try (intros _; discriminate); congruence|]);
    (split; [intros H; try reflexivity; discriminate H|]);
    split; try discriminate; try (intros [? ?]; discriminate); auto.
Qed.

Lemma count_restore_cons (e : Event) (h : list Event) :
  count_restore (e :: h) = (if is_restore e then 1 else 0) + count_restore h.
Proof. unfold count_restore. cbn [filter]. destruct (is_restore e); reflexivity. Qed.

Ltac finish_factor :=
  eexists; eexists;
  (split; [intros ? ? HC; rewrite HC; reflexivity|]);
  cbn [self hist client session done];
  (split; [reflexivity|]); (split; [reflexivity|]);
  (split; [first [left; reflexivity
                 | right; split; [reflexivity | discriminate]]|]);
  rewrite ?count_restore_cons, ?count_done_cons; cbn [is_restore];
  split; lia.

(** ExecScript on a connected manager ends in the deferred Close, run on
    the manager as it was or with its session cleared; the session is
    cleared whenever ExecScript does not return an error. *)
Lemma ExecScript_factors
  (script : string) (w : World) (c : ClientH) (ss : SessionH) :
  client (self w) = Some c -> session (self w) = Some ss ->
  exists r W,
    (forall rc w', Close env W = Ret rc w' -> ExecScript env script w = Ret r w')
    /\ client (self W) = Some c
    /\ done (self W) = done (self w)
    /\ (session (self W) = None \/ (session (self W) = Some ss /\ r <> None))
    /\ count_restore (hist W) = count_restore (hist w)
    /\ count_done (hist W) = count_done (hist w).
Proof.
  destruct w as [[hp cfg cl se d] h]. cbn [self hist client session done].
  intros -> ->.
  unfold ExecScript, stdinPipe, mustBeConnected. run_go.
  destruct (session_StdinPipe env h); run_go; [finish_factor|].
  destruct (session_Shell env _); run_go; [finish_factor|].
  destruct (inp_Write env _); run_go; finish_factor.
Qed.

Local Arguments after : simpl never.

(** Shell on a connected manager ends in the deferred Close as well,
    with the terminal restored by then exactly when raw mode was entered;
    unless a notification arrives late and the program dies beside the
    main path. *)
Lemma Shell_factors (w : World) (c : ClientH) (ss : SessionH) :
  client (self w) = Some c -> session (self w) = Some ss ->
  (exists p w',
      Shell env w = Pan (InGoroutine p) w'
      /\ (p = NilDereference \/ p = SendOnClosedChannel))
  \/ exists r W,
    (forall rc w', Close env W = Ret rc w' -> Shell env w = Ret r w')
    /\ client (self W) = Some c
    /\ done (self W) = done (self w)
    /\ (session (self W) = None \/ (session (self W) = Some ss /\ r <> None))
    /\ count_restore (hist W)
       = count_restore (hist w)
         + (match terminal_MakeRaw env (hist w) with None => 1 | Some _ => 0 end)
    /\ count_done (hist W) = count_done (hist w).
Proof.
  destruct w as [[hp cfg cl se d] h]. cbn [self hist client session done].
  intros -> ->.
  unfold Shell, mustBeConnected.
  unfold defer_, bind, get_self, ret, throw, ask, emit, deref, set_session,
    notifications, in_goroutine.
  cbn.
  destruct (terminal_MakeRaw env h) as [e1|]; cbn; [right; finish_factor|].
  destruct (terminal_GetSize env _) as [e2|[wd ht]]; cbn; [right; finish_factor|].
  destruct (session_RequestPty env _) as [e3|]; cbn; [right; finish_factor|].
  destruct (session_Shell env _) as [e4|]; cbn; [right; finish_factor|].
  rewrite forward_resizes_run by (cbn; discriminate). cbn.
  match goal with |- context [forward_resizes (sigwinch_sizes env ?H)] =>
    destruct (sigwinch_sizes env H) as [|[wd2 ht2] late] end.
  2:{ left. rewrite forward_resizes_cleared by reflexivity. cbn. eauto. }
  cbn.
  match goal with |- context [send_on_closed (sigwinch_sizes env ?H)] =>
    destruct (sigwinch_sizes env H) as [|[wd3 ht3] stray] end.
  2:{ left. cbn. eauto. }
  cbn. right.
  eexists; eexists.
  split; [intros rc w' HC; rewrite HC; reflexivity|].
  cbn [self hist client session done].
  split; [reflexivity|]. split; [reflexivity|]. split; [left; reflexivity|].
  rewrite !count_restore_cons, count_restore_after, count_restore_resizes.
  rewrite !count_done_cons, count_done_after, count_done_resizes.
  rewrite !count_restore_cons, !count_done_cons. cbn [is_restore]. split; lia.
Qed.

Lemma Shell_not_connected (w : World) :
  client (self w) = None \/ session (self w) = None ->
  Shell env w = Ret (Some err_not_connected) w.
Proof.
  intros H. unfold Shell, bind. now rewrite (mustBeConnected_fails w H).
Qed.

Lemma ExecScript_not_connected (script : string) (w : World) :
  client (self w) = None \/ session (self w) = None ->
  ExecScript env script w = Ret (Some err_not_connected) w.
Proof.
  intros H. unfold ExecScript, bind. now rewrite (mustBeConnected_fails w H).
Qed.

Lemma connected_or_not (w : World) :
  (exists c ss, client (self w) = Some c /\ session (self w) = Some ss)
  \/ (client (self w) = None \/ session (self w) = None).
Proof.
  destruct (client (self w)) as [c|]; [|auto].
  destruct (session (self w)) as [ss|]; eauto.
Qed.

(** What a run of dial leaves behind. *)
Lemma dial_effect (ctx : bool) (w : World) :
  exists r w',
    dial env ctx w = Ret r w'
    /\ (session_needs_client (self w) -> session_needs_client (self w'))
    /\ (r = None -> client (self w') <> None /\ session (self w') <> None)
    /\ (r = None -> done (self w') = done (self w)
                    /\ count_done (hist w') = count_done (hist w)).
Proof.
  destruct w as [[hp cfg cl se d] h]. unfold session_needs_client.
  unfold dial, getClient, getSession. run_go.
  destruct cl as [c|]; run_go.
  - destruct se as [ss|]; run_go.
    { eexists; eexists. split; [reflexivity|]. cbn. repeat split; auto; discriminate. }
    destruct (client_NewSession env _) as [e3|ss]; run_go.
    + match goal with |- context [Close env ?W] =>
        destruct (Close_effect W) as (rc & w1 & HC & _ & _ & _ & Hinv & _) end.
      rewrite HC. destruct rc; eexists; eexists; (split; [reflexivity|]);
        (split; [intros _; apply Hinv; cbn; discriminate|]);
        split; discriminate.
    + eexists; eexists. split; [reflexivity|]. cbn. repeat split; auto; discriminate.
  - destruct (net_DialContext env h); run_go.
    { eexists; eexists. split; [reflexivity|]. cbn. repeat split; auto; discriminate. }
    destruct (ssh_NewClientConn env _) as [e2|c]; run_go.
    { eexists; eexists. split; [reflexivity|]. cbn. repeat split; auto; discriminate. }
    destruct se as [ss|]; run_go.
    { eexists; eexists. split; [reflexivity|]. cbn. repeat split; auto; discriminate. }
    destruct (client_NewSession env _) as [e3|ss]; run_go.
    + match goal with |- context [Close env ?W] =>
        destruct (Close_effect W) as (rc & w1 & HC & _ & _ & _ & Hinv & _) end.
      rewrite HC. destruct rc; eexists; eexists; (split; [reflexivity|]);
        (split; [intros _; apply Hinv; cbn; discriminate|]);
        split; discriminate.
    + eexists; eexists. split; [reflexivity|]. cbn. repeat split; auto; discriminate.
Qed.

(** X7: On a manager made by NewSSHClient (its [done] channel exists),
    in any state of its handles and whatever the collaborators answer,
    dial, Close and ExecScript never panic, and Shell never panics on its
    own path: no nil handle is followed there and [done] is never closed
    twice.  Shell returns, or the program dies beside it, in the resize
    worker (a nil session) or in the delivery of a signal (a closed
    channel). *)
Theorem no_panic_on_the_main_path (ctx : bool) (script : string) (w : World) :
  (exists r w', dial env ctx w = Ret r w')
  /\ (exists r w', Close env w = Ret r w')
  /\ (exists r w', ExecScript env script w = Ret r w')
  /\ ((exists r w', Shell env w = Ret r w')
      \/ (exists p w',
            Shell env w = Pan (InGoroutine p) w'
            /\ (p = NilDereference \/ p = SendOnClosedChannel))).
Proof.
  split; [|split; [|split]].
  - destruct (dial_effect ctx w) as (r & w' & H & _). eauto.
  - destruct (Close_effect w) as (r & w' & H & _). eauto.
  - destruct (connected_or_not w) as [(c & ss & Hc & Hs) | H].
    + destruct (ExecScript_factors script w c ss Hc Hs) as (r & W & HE & _).
      destruct (Close_effect W) as (rc & w' & HC & _). eauto.
    + rewrite (ExecScript_not_connected script w H). eauto.
  - destruct (connected_or_not w) as [(c & ss & Hc & Hs) | H].
    + destruct (Shell_factors w c ss Hc Hs) as [HP | (r & W & HE & _)]; [auto|].
      destruct (Close_effect W) as (rc & w' & HC & _). eauto.
    + rewrite (Shell_not_connected w H). eauto.
Qed.

(** X8: The manager never holds a session without a connection: a manager
    that has a client whenever it has a session still does after dial,
    Close, ExecScript or Shell, whatever these return. *)
Theorem session_never_without_client
  (ctx : bool) (script : string) (w w' : World) (r : option error) :
  session_needs_client (self w) ->
  dial env ctx w = Ret r w' \/ Close env w = Ret r w'
  \/ ExecScript env script w = Ret r w' \/ Shell env w = Ret r w' ->
  session_needs_client (self w').
Proof.
  intros Hinv [H | [H | [H | H]]].
  - destruct (dial_effect ctx w) as (r1 & w1 & H1 & Hi & _).
    rewrite H1 in H. inversion H; subst. auto.
  - destruct (Close_effect w) as (r1 & w1 & H1 & _ & _ & _ & Hi & _).
    rewrite H1 in H. inversion H; subst. auto.
  - destruct (connected_or_not w) as [(c & ss & Hc & Hs) | Hn].
    + destruct (ExecScript_factors script w c ss Hc Hs) as (r1 & W & HE & HcW & _).
      destruct (Close_effect W) as (rc & w1 & HC & _ & _ & _ & Hi & _).
      rewrite (HE rc w1 HC) in H. inversion H; subst.
      apply Hi. intros _. rewrite HcW. discriminate.
    + rewrite (ExecScript_not_connected script w Hn) in H. inversion H; subst. exact Hinv.
  - destruct (connected_or_not w) as [(c & ss & Hc & Hs) | Hn].
    + destruct (Shell_factors w c ss Hc Hs) as [(p0 & w0 & HP & _) | (r1 & W & HE & HcW & _)]; [rewrite HP in H; discriminate H|].
      destruct (Close_effect W) as (rc & w1 & HC & _ & _ & _ & Hi & _).
      rewrite (HE rc w1 HC) in H. inversion H; subst.
      apply Hi. intros _. rewrite HcW. discriminate.
    + rewrite (Shell_not_connected w Hn) in H. inversion H; subst. exact Hinv.
Qed.



(** X11: When ExecScript or Shell returns no error, the session handle is
    cleared and the manager is no longer connected. *)
Theorem exec_success_closes_session (script : string) (w w' : World) :
  ExecScript env script w = Ret None w' \/ Shell env w = Ret None w' ->
  session (self w') = None
  /\ mustBeConnected w' = Ret (Some err_not_connected) w'.
Proof.
  intros H.
  assert (Hs' : session (self w') = None).
  { destruct (connected_or_not w) as [(c & ss & Hc & Hs) | Hn].
    - destruct H as [H | H].
      + destruct (ExecScript_factors script w c ss Hc Hs)
          as (r1 & W & HE & _ & _ & HsW & _).
        destruct (Close_effect W) as (rc & w1 & HC & _ & _ & _ & _ & Hk & _).
        rewrite (HE rc w1 HC) in H. inversion H; subst.
        destruct HsW as [HsW | [_ Hne]]; [auto | congruence].
      + destruct (Shell_factors w c ss Hc Hs)
          as [(p0 & w0 & HP & _) | (r1 & W & HE & _ & _ & HsW & _)];
          [rewrite HP in H; discriminate H|].
        destruct (Close_effect W) as (rc & w1 & HC & _ & _ & _ & _ & Hk & _).
        rewrite (HE rc w1 HC) in H. inversion H; subst.
        destruct HsW as [HsW | [_ Hne]]; [auto | congruence].
    - destruct H as [H | H].
      + rewrite (ExecScript_not_connected script w Hn) in H. discriminate H.
      + rewrite (Shell_not_connected w Hn) in H. discriminate H. }
  split; [exact Hs'|]. apply mustBeConnected_fails. auto.
Qed.

(** X12: Close returns no error exactly when it leaves both handles cleared:
    an error from Close always means a handle is still held. *)
Theorem Close_nil_iff_released (w w' : World) (r : option error) :
  Close env w = Ret r w' ->
  (r = None <-> client (self w') = None /\ session (self w') = None).
Proof.
  intros H. destruct (Close_effect w) as (r1 & w1 & H1 & _ & _ & _ & _ & _ & Hiff).
  rewrite H1 in H. inversion H; subst. exact Hiff.
Qed.

(** X13: A dial that returns no error leaves the manager connected, with [done]
    untouched, and dialing again is then a no-op: nothing is called and
    nothing changes. *)
Theorem dial_connects_once (ctx ctx' : bool) (w w' : World) :
  dial env ctx w = Ret None w' ->
  mustBeConnected w' = Ret None w'
  /\ done (self w') = done (self w)
  /\ dial env ctx' w' = Ret None w'.
Proof.
  intros H. destruct (dial_effect ctx w) as (r1 & w1 & H1 & _ & Hc & Hd).
  rewrite H1 in H. inversion H; subst.
  destruct (Hc eq_refl) as [Hcl Hse]. destruct (Hd eq_refl) as [Hdone _].
  destruct w' as [[hp cfg cl se d] h]. cbn in *.
  destruct cl as [c|]; [|congruence]. destruct se as [ss|]; [|congruence].
  repeat split; auto.
Qed.

(** X14: A failed dial that left no client handle (the transport or the
    handshake failed, or the session failed and the connection could be
    closed) can be retried: the next dial starts afresh and connects when
    its steps succeed. *)
Theorem dial_retry
  (ctx : bool) (w w1 : World) (err : error) (c : ClientH) (ss : SessionH) :
  client (self w) = None -> session (self w) = None ->
  dial env ctx w = Ret (Some err) w1 ->
  client (self w1) = None ->
  let s := self w in
  let h1 := hist w1 in
  let opened := [EvDialContext (hostPort s); EvGoWatcher ctx;
                 EvNewClientConn (hostPort s)] in
  net_DialContext env h1 = None ->
  ssh_NewClientConn env (after h1 [EvDialContext (hostPort s); EvGoWatcher ctx])
  = inr c ->
  client_NewSession env (after h1 opened) = inr ss ->
  dial env ctx w1
  = Ret None
      {| self := mkSSHClient (hostPort s) (sshConfig s) (Some c) (Some ss)
                   (done (self w1));
         hist := after h1 (opened ++ [EvNewSession c]) |}.
Proof.
  intros Hc Hs H Hc1. cbv zeta. intros A1 A2 A3.
  assert (Hhp : hostPort (self w1) = hostPort (self w)
                /\ sshConfig (self w1) = sshConfig (self w)
                /\ session (self w1) = None).
  { clear A1 A2 A3 Hc1.
    destruct w as [[hp cfg cl se d] h]. cbn in Hc, Hs. subst cl se.
    unfold dial, getClient, getSession in H. run_go.
    destruct (net_DialContext env h); run_go; [inversion H; subst; cbn; auto|].
    destruct (ssh_NewClientConn env _) as [e2|c0]; run_go;
      [inversion H; subst; cbn; auto|].
    destruct (client_NewSession env _) as [e3|ss0]; run_go; [|discriminate H].
    rewrite Close_cases in H. run_go.
    destruct (client_Close env _); inversion H; subst; cbn; auto. }
  destruct Hhp as (Hhp & Hcfg & Hs1).
  pose proof (dial_success env ctx w1 c ss Hc1 Hs1) as D. cbv zeta in D.
  rewrite Hhp, Hcfg in D. apply D; assumption.
Qed.

Lemma after_cons (h : list Event) (e : Event) (l : list Event) :
  after h (e :: l) = after (e :: h) l.
Proof. unfold after. cbn [rev]. now rewrite <- app_assoc. Qed.

Lemma after_nil (h : list Event) : after h [] = h.
Proof. reflexivity. Qed.

(** X15: The interactive session, when the terminal and the session
    cooperate and every resize notification arrives while the remote shell
    runs (none after the session is cleared, none after the signal channel
    is closed): raw mode, the terminal size, a pty of that size (rows, then
    columns), the three streams, the shell, the notifications forwarded
    one by one as window changes (rows, then columns), the wait, the worker
    stopped and joined, the terminal restored, and only then the teardown.
    Shell returns what the wait returned. *)
Theorem Shell_sequence
  (w : World) (c : ClientH) (ss : SessionH) (wd ht : nat) :
  client (self w) = Some c -> session (self w) = Some ss ->
  let h := hist w in
  terminal_MakeRaw env h = None ->
  terminal_GetSize env (after h [EvMakeRaw]) = inr (wd, ht) ->
  session_RequestPty env (after h [EvMakeRaw; EvGetSize]) = None ->
  session_Shell env
    (after h [EvMakeRaw; EvGetSize; EvRequestPty ss "xterm" ht wd; EvSetStdio ss])
  = None ->
  let started := [EvMakeRaw; EvGetSize; EvRequestPty ss "xterm" ht wd;
                  EvSetStdio ss; EvSessionShell ss; EvSignalNotify] in
  let resized :=
    (started ++ resize_events (sigwinch_sizes env (after h started)))%list in
  sigwinch_sizes env (after h (resized ++ [EvSessionWait ss])) = [] ->
  sigwinch_sizes env (after h (resized ++ [EvSessionWait ss; EvCloseSigChan])) = [] ->
  exists w',
    Shell env w = Ret (session_Wait env (after h resized)) w'
    /\ hist w'
       = after h (resized
                  ++ [EvSessionWait ss; EvCloseSigChan; EvWgWait; EvRestore;
                      EvClientClose c]
                  ++ fire_done (done (self w)))
    /\ session (self w') = None.
Proof.
  destruct w as [[hp cfg cl se d] h]. cbn [self hist client session done].
  intros -> ->. cbv zeta.
  rewrite !after_app, !after_cons, !after_nil.
  intros H1 H2 H3 H4 H5 H6.
  unfold Shell, mustBeConnected.
  unfold defer_, bind, get_self, ret, throw, ask, emit, deref, set_session,
    notifications, in_goroutine.
  cbn. rewrite H1. cbn. rewrite H2. cbn. rewrite H3. cbn. rewrite H4. cbn.
  rewrite forward_resizes_run by (cbn; discriminate). cbn.
  rewrite H5. cbn. rewrite H6. cbn.
  rewrite Close_cases. cbn.
  destruct (client_Close env _); destruct d; cbn [fire_done app];
    rewrite ?after_cons, ?after_nil;
    eexists; (split; [reflexivity|]); split; reflexivity.
Qed.


(** Close clears the session whenever its wait does not fail. *)
Lemma Close_clears_session (w w' : World) (r : option error) :
  session (self w) = None \/ session_Wait env (hist w) = None ->
  Close env w = Ret r w' ->
  session (self w') = None.
Proof.
  rewrite Close_cases. destruct w as [[hp cfg cl se d] h]. cbn [self hist session client done].
  intros Hw. destruct se as [ss|].
  - destruct Hw as [Hw | Hw]; [discriminate Hw|]. rewrite Hw.
    destruct cl as [c|]; [destruct (client_Close env _)|];
      intros H; inversion H; reflexivity.
  - destruct cl as [c|]; [destruct (client_Close env _)|];
      intros H; inversion H; reflexivity.
Qed.

(** X16: With a session whose wait never fails, ExecScript and Shell leave the
    manager not connected after every outcome, failures of the earlier
    steps and of the final close of the connection included. *)
Theorem exec_closed_unless_wait_fails
  (script : string) (w w' : World) (r : option error) :
  (forall h, session_Wait env h = None) ->
  ExecScript env script w = Ret r w' \/ Shell env w = Ret r w' ->
  mustBeConnected w' = Ret (Some err_not_connected) w'.
Proof.
  intros Hwait H.
  destruct (connected_or_not w) as [(c & ss & Hc & Hs) | Hn].
  - apply mustBeConnected_fails. right. destruct H as [H | H].
    + destruct (ExecScript_factors script w c ss Hc Hs) as (r1 & W & HE & _).
      destruct (Close_effect W) as (rc & w1 & HC & _).
      rewrite (HE rc w1 HC) in H. inversion H; subst.
      exact (Close_clears_session W w' rc (or_intror (Hwait _)) HC).
    + destruct (Shell_factors w c ss Hc Hs) as [(p0 & w0 & HP & _) | (r1 & W & HE & _)]; [rewrite HP in H; discriminate H|].
      destruct (Close_effect W) as (rc & w1 & HC & _).
      rewrite (HE rc w1 HC) in H. inversion H; subst.
      exact (Close_clears_session W w' rc (or_intror (Hwait _)) HC).
  - destruct H as [H | H].
    + rewrite (ExecScript_not_connected script w Hn) in H. inversion H; subst.
      now apply mustBeConnected_fails.
    + rewrite (Shell_not_connected w Hn) in H. inversion H; subst.
      now apply mustBeConnected_fails.
Qed.

End ManagerInvariants.

(** *** Witnesses *)

Lemma session_never_without_client_witness :
  session_needs_client (self connected_world).
Proof.
  apply (session_never_without_client (scripted None None None None (inr 2))
           false "" fresh_world connected_world None).
  - intros H. exfalso. apply H. reflexivity.
  - left. reflexivity.
Defined.



Lemma exec_success_closes_session_witness :
  exists w',
    ExecScript (scripted None (Some "close: broken pipe") None None (inr 2))
      "true" connected_world
    = Ret None w'
    /\ session (self w') = None
    /\ mustBeConnected w' = Ret (Some err_not_connected) w'.
Proof.
  eexists. split; [reflexivity|].
  apply (exec_success_closes_session
           (scripted None (Some "close: broken pipe") None None (inr 2))
           "true" connected_world).
  left. reflexivity.
Defined.

Lemma Close_nil_iff_released_witness :
  exists w',
    Close (scripted None None None None (inr 2)) connected_world = Ret None w'
    /\ client (self w') = None /\ session (self w') = None.
Proof.
  eexists. split; [reflexivity|].
  apply (proj1 (Close_nil_iff_released (scripted None None None None (inr 2))
                  connected_world _ None eq_refl)).
  reflexivity.
Defined.

Lemma dial_connects_once_witness :
  mustBeConnected connected_world = Ret None connected_world
  /\ done (self connected_world) = done (self fresh_world)
  /\ dial (scripted None None None None (inr 2)) true connected_world
     = Ret None connected_world.
Proof.
  apply (dial_connects_once (scripted None None None None (inr 2))
           false true fresh_world connected_world).
  reflexivity.
Defined.

Lemma dial_retry_witness :
  dial flaky_transport false
    {| self := self fresh_world; hist := [EvDialContext "host:22"] |}
  = Ret None
      {| self := mkSSHClient "host:22" (OpaqueConfig 0) (Some 1) (Some 2) false;
         hist := after [EvDialContext "host:22"]
                   [EvDialContext "host:22"; EvGoWatcher false;
                    EvNewClientConn "host:22"; EvNewSession 1] |}.
Proof.
  apply (dial_retry flaky_transport false fresh_world
           {| self := self fresh_world; hist := [EvDialContext "host:22"] |}
           "dial tcp: connection refused" 1 2); reflexivity.
Defined.

Lemma Shell_sequence_witness :
  exists w',
    Shell (scripted (Some "Process exited with status 1") None None None (inr 2))
      connected_world
    = Ret (Some "Process exited with status 1") w'
    /\ hist w'
       = after (hist connected_world)
           [EvMakeRaw; EvGetSize; EvRequestPty 2 "xterm" 24 80; EvSetStdio 2;
            EvSessionShell 2; EvSignalNotify; EvSessionWait 2; EvCloseSigChan;
            EvWgWait; EvRestore; EvClientClose 1; EvCloseDone]
    /\ session (self w') = None.
Proof.
  apply (Shell_sequence
           (scripted (Some "Process exited with status 1") None None None (inr 2))
           connected_world 1 2 80 24); reflexivity.
Defined.

Lemma exec_closed_unless_wait_fails_witness :
  exists w',
    ExecScript (scripted None (Some "close: broken pipe")
                  (Some "ssh: could not start shell") None (inr 2))
      "true" connected_world
    = Ret (Some "ssh: could not start shell") w'
    /\ mustBeConnected w' = Ret (Some err_not_connected) w'.
Proof.
  eexists. split; [reflexivity|].
  apply (exec_closed_unless_wait_fails
           (scripted None (Some "close: broken pipe")
              (Some "ssh: could not start shell") None (inr 2))
           "true" connected_world _ (Some "ssh: could not start shell")).
  - intros h. reflexivity.
  - left. reflexivity.
Defined.

(** * Aborting at the first failure *)

Section FirstFailure.

Variable env : Collaborators.

(** X17: On a connected manager, the first of StdinPipe, the shell request
    and the write that fails ends ExecScript: its error is returned, no
    later step is called, and only the deferred Close, run on the manager
    as it was, follows. *)
Theorem ExecScript_aborts_at_first_failure
  (script : string) (w : World) (c : ClientH) (ss : SessionH) (e : error) :
  client (self w) = Some c -> session (self w) = Some ss ->
  let h := hist w in
  let stops_after (evs : list Event) :=
    exists rc w',
      Close env {| self := self w; hist := after h evs |} = Ret rc w'
      /\ ExecScript env script w = Ret (Some e) w' in
  (session_StdinPipe env h = Some e -> stops_after [EvStdinPipe ss])
  /\ (session_StdinPipe env h = None ->
      session_Shell env (after h [EvStdinPipe ss]) = Some e ->
      stops_after [EvStdinPipe ss; EvSessionShell ss])
  /\ (session_StdinPipe env h = None ->
      session_Shell env (after h [EvStdinPipe ss]) = None ->
      inp_Write env (after h [EvStdinPipe ss; EvSessionShell ss]) = Some e ->
      stops_after [EvStdinPipe ss; EvSessionShell ss; EvWrite (script ++ nl)]).
Proof.
  destruct w as [[hp cfg cl se d] h]. cbn [self hist client session done].
  intros -> ->. cbv zeta.
  unfold ExecScript, stdinPipe, mustBeConnected. run_go.
  split; [|split].
  - intros Hp. rewrite Hp. run_go.
    match goal with |- context [Close env ?W] =>
      destruct (Close_total env W) as (rc & w1 & HC & _) end.
    exists rc, w1. rewrite HC. auto.
  - intros Hp Hs. rewrite Hp. run_go. rewrite Hs. run_go.
    match goal with |- context [Close env ?W] =>
      destruct (Close_total env W) as (rc & w1 & HC & _) end.
    exists rc, w1. rewrite HC. auto.
  - intros Hp Hs Hw. rewrite Hp. run_go. rewrite Hs. run_go. rewrite Hw. run_go.
    match goal with |- context [Close env ?W] =>
      destruct (Close_total env W) as (rc & w1 & HC & _) end.
    exists rc, w1. rewrite HC. auto.
Qed.

(** X18: On a connected manager, the first of MakeRaw, GetSize, the pty
    request and the shell request that fails ends Shell: its error is
    returned and no later step is called; the terminal is restored when
    raw mode had been entered, and then only the deferred Close, run on the
    manager as it was, follows. *)
Theorem Shell_aborts_at_first_failure
  (w : World) (c : ClientH) (ss : SessionH) (wd ht : nat) (e : error) :
  client (self w) = Some c -> session (self w) = Some ss ->
  let h := hist w in
  let stops_after (evs : list Event) :=
    exists rc w',
      Close env {| self := self w; hist := after h evs |} = Ret rc w'
      /\ Shell env w = Ret (Some e) w' in
  let pty := EvRequestPty ss "xterm" ht wd in
  (terminal_MakeRaw env h = Some e -> stops_after [EvMakeRaw])
  /\ (terminal_MakeRaw env h = None ->
      terminal_GetSize env (after h [EvMakeRaw]) = inl e ->
      stops_after [EvMakeRaw; EvGetSize; EvRestore])
  /\ (terminal_MakeRaw env h = None ->
      terminal_GetSize env (after h [EvMakeRaw]) = inr (wd, ht) ->
      session_RequestPty env (after h [EvMakeRaw; EvGetSize]) = Some e ->
      stops_after [EvMakeRaw; EvGetSize; pty; EvRestore])
  /\ (terminal_MakeRaw env h = None ->
      terminal_GetSize env (after h [EvMakeRaw]) = inr (wd, ht) ->
      session_RequestPty env (after h [EvMakeRaw; EvGetSize]) = None ->
      session_Shell env (after h [EvMakeRaw; EvGetSize; pty; EvSetStdio ss])
      = Some e ->
      stops_after [EvMakeRaw; EvGetSize; pty; EvSetStdio ss; EvSessionShell ss;
                   EvRestore]).
Proof.
  destruct w as [[hp cfg cl se d] h]. cbn [self hist client session done].
  intros -> ->. cbv zeta.
  unfold Shell, mustBeConnected. run_go.
  split; [|split; [|split]].
  - intros H1. rewrite H1. run_go.
    match goal with |- context [Close env ?W] =>
      destruct (Close_total env W) as (rc & w1 & HC & _) end.
    exists rc, w1. rewrite HC. auto.
  - intros H1 H2. rewrite H1. run_go. rewrite H2. run_go.
    match goal with |- context [Close env ?W] =>
      destruct (Close_total env W) as (rc & w1 & HC & _) end.
    exists rc, w1. rewrite HC. auto.
  - intros H1 H2 H3. rewrite H1. run_go. rewrite H2. run_go. rewrite H3. run_go.
    match goal with |- context [Close env ?W] =>
      destruct (Close_total env W) as (rc & w1 & HC & _) end.
    exists rc, w1. rewrite HC. auto.
  - intros H1 H2 H3 H4. rewrite H1. run_go. rewrite H2. run_go.
    rewrite H3. run_go. rewrite H4. run_go.
    match goal with |- context [Close env ?W] =>
      destruct (Close_total env W) as (rc & w1 & HC & _) end.
    exists rc, w1. rewrite HC. auto.
Qed.

End FirstFailure.

Lemma ExecScript_aborts_at_first_failure_witness :
  exists rc w',
    Close (scripted None None (Some "ssh: could not start shell") None (inr 2))
      {| self := self connected_world;
         hist := after (hist connected_world) [EvStdinPipe 2; EvSessionShell 2] |}
    = Ret rc w'
    /\ ExecScript (scripted None None (Some "ssh: could not start shell") None (inr 2))
         "true" connected_world
       = Ret (Some "ssh: could not start shell") w'.
Proof.
  apply (proj1 (proj2 (ExecScript_aborts_at_first_failure
                         (scripted None None (Some "ssh: could not start shell")
                            None (inr 2))
                         "true" connected_world 1 2 "ssh: could not start shell"
                         eq_refl eq_refl))); reflexivity.
Defined.

Lemma Shell_aborts_at_first_failure_witness :
  exists rc w',
    Close (scripted None None (Some "ssh: could not start shell") None (inr 2))
      {| self := self connected_world;
         hist := after (hist connected_world)
                   [EvMakeRaw; EvGetSize; EvRequestPty 2 "xterm" 24 80;
                    EvSetStdio 2; EvSessionShell 2; EvRestore] |}
    = Ret rc w'
    /\ Shell (scripted None None (Some "ssh: could not start shell") None (inr 2))
         connected_world
       = Ret (Some "ssh: could not start shell") w'.
Proof.
  apply (proj2 (proj2 (proj2 (Shell_aborts_at_first_failure
                         (scripted None None (Some "ssh: could not start shell")
                            None (inr 2))
                         connected_world 1 2 80 24 "ssh: could not start shell"
                         eq_refl eq_refl)))); reflexivity.
Defined.

